(** * require-atomic-updates: a shallow embedding of the rule and its
      segment-state analysis

    Source: [lib/rules/require-atomic-updates.js].  The rule walks the AST of
    a program in step with ESLint's code-path analysis.  Its own state is
    - [dummyVariables]: placeholders for unresolved names,
    - [assignmentReferences]: references waiting for their right-hand side,
    - [segmentInfo]: per code-path segment, the fresh and the outdated reads,
    - [stack]: one frame per function body being traversed.

    Objects that the rule compares with [===] or uses as [Map]/[WeakMap]/[Set]
    keys are modelled by their identity (a number, or a name for a dummy
    variable).  The parent link of an AST node is kept inside the node, so the
    [while (node)] loops that climb it are structural; a child is reached
    through the node table of [Env].  Reading a property of [null] throws, and
    the handlers are written in a state monad with that one exception. *)

From Stdlib Require Import String.
From stdpp Require Import gmap strings list fin_maps.

Local Open Scope string_scope.
Local Open Scope list_scope.
Set Warnings "-register-all,-clear-no-such-hyp".

(** ** Identities *)

Abbreviation NodeId := nat (only parsing).
Abbreviation ScopeId := nat (only parsing).
Abbreviation SegmentId := nat (only parsing).
Abbreviation CodePathId := nat (only parsing).

(** A variable is either one of escope's resolved variables or one of the
    rule's dummies, of which there is one per name ([dummyVariables]). *)
Inductive VarId :=
  | Resolved (key : nat)
  | Unresolved (name : string).

#[global] Instance VarId_eq_dec : EqDecision VarId.
Proof. solve_decision. Defined.

#[global] Instance VarId_countable : Countable VarId.
Proof.
  refine (inj_countable'
            (λ v, match v with Resolved k => inl k | Unresolved n => inr n end)
            (λ s, match s with inl k => Resolved k | inr n => Unresolved n end) _).
  by intros [].
Defined.

(** ** Code-path segments *)

Module PathSegment.
Record t := mk { id : SegmentId; prevSegments : list SegmentId }.
End PathSegment.

(** ** class SegmentInfo *)

Module SegmentInfo.

(** The value stored per segment: [{ outdatedReadVariables, freshReadVariables }]. *)
Record Info := mkInfo {
  outdatedReadVariables : gset VarId;
  freshReadVariables : gset VarId }.

(** [this.info], a [WeakMap] from segments to [Info]. *)
Abbreviation t := (gmap SegmentId Info).

(** [new SegmentInfo()] *)
Definition new : t := ∅.

(** One turn of the [for] loop of [initialize]: the sets of a previous
    segment are added when it has an entry. *)
Definition initialize_step (self : t) (acc : gset VarId * gset VarId)
    (prevSegment : SegmentId) : gset VarId * gset VarId :=
  match self !! prevSegment with
  | Some info =>
      (acc.1 ∪ outdatedReadVariables info, acc.2 ∪ freshReadVariables info)
  | None => acc
  end.

Definition initialize (segment : PathSegment.t) (self : t) : t :=
  let acc := foldl (initialize_step self) (∅, ∅) (PathSegment.prevSegments segment) in
  <[PathSegment.id segment :=
      {| outdatedReadVariables := acc.1; freshReadVariables := acc.2 |}]> self.

Definition markAsRead_step (variable : VarId) (self : t) (segment : SegmentId) : t :=
  match self !! segment with
  | Some info =>
      <[segment := {| outdatedReadVariables := outdatedReadVariables info;
                      freshReadVariables := freshReadVariables info ∪ {[variable]} |}]> self
  | None => self
  end.

Definition markAsRead (segments : list SegmentId) (variable : VarId) (self : t) : t :=
  foldl (markAsRead_step variable) self segments.

(** The loop of [makeOutdated] also fills the local set [vars], which is
    dropped when the method returns. *)
Definition makeOutdated_step (acc : t * gset VarId) (segment : SegmentId)
    : t * gset VarId :=
  match acc.1 !! segment with
  | Some info =>
      (<[segment := {| outdatedReadVariables :=
                         outdatedReadVariables info ∪ freshReadVariables info;
                       freshReadVariables := ∅ |}]> acc.1,
       acc.2 ∪ freshReadVariables info)
  | None => acc
  end.

Definition makeOutdated (segments : list SegmentId) (self : t) : t :=
  (foldl makeOutdated_step (self, ∅) segments).1.

Fixpoint isOutdated (segments : list SegmentId) (variable : VarId) (self : t) : bool :=
  match segments with
  | [] => false
  | segment :: rest =>
      match self !! segment with
      | Some info =>
          if decide (variable ∈ outdatedReadVariables info) then true
          else isOutdated rest variable self
      | None => isOutdated rest variable self
      end
  end.

(** [info.freshReadVariables.add(variable)] *)
Definition addFresh (variable : VarId) (info : Info) : Info :=
  {| outdatedReadVariables := outdatedReadVariables info;
     freshReadVariables := freshReadVariables info ∪ {[variable]} |}.

(** The state that a suspension leaves behind: the fresh reads have
    become outdated. *)
Definition outdate (info : Info) : Info :=
  {| outdatedReadVariables := outdatedReadVariables info ∪ freshReadVariables info;
     freshReadVariables := ∅ |}.

(** The union of the states of some segments, set by set. *)
Definition join (infos : list Info) : Info :=
  {| outdatedReadVariables := ⋃ (outdatedReadVariables <$> infos);
     freshReadVariables := ⋃ (freshReadVariables <$> infos) |}.

(** The methods that change the store, as calls that can be replayed. *)
Inductive Call :=
  | CallInitialize (segment : PathSegment.t)
  | CallMarkAsRead (segments : list SegmentId) (variable : VarId)
  | CallMakeOutdated (segments : list SegmentId).

Definition call (self : t) (c : Call) : t :=
  match c with
  | CallInitialize segment => initialize segment self
  | CallMarkAsRead segments variable => markAsRead segments variable self
  | CallMakeOutdated segments => makeOutdated segments self
  end.

(** [initialize] is called with [segment] somewhere in [calls]. *)
Definition initializes (segment : SegmentId) (c : Call) : bool :=
  match c with
  | CallInitialize s => bool_decide (PathSegment.id s = segment)
  | _ => false
  end.

End SegmentInfo.

(** ** The AST, as far as the rule looks at it *)

Module AST.

(** A node with the fields the rule reads.  A field that a node kind does
    not have is [None] ([undefined] in the source); child nodes are held by
    identity, the parent is the parent node itself. *)
Inductive Node := mkNode {
  id : NodeId;
  type : string;
  name : string;
  operator : option string;
  object : option NodeId;
  left : option NodeId;
  right : option NodeId;
  async : bool;
  generator : bool;
  parent : option Node }.

End AST.

(** ** Scopes, references and variables of the scope manager *)

Module Scope.

(** A scope as it is reached from a reference ([reference.from]) or from a
    variable ([variable.scope]). *)
Record t := mk {
  id : ScopeId;
  type : string;
  variableScope : ScopeId;
  block : AST.Node }.

End Scope.

Module Reference.

(** [resolved] is the key of the variable in the scope manager's table, or
    [None] where the source finds [null]. *)
Record t := mk {
  identifier : AST.Node;
  resolved : option nat;
  from : Scope.t;
  isRead : bool;
  writeExpr : option AST.Node }.

End Reference.

Module Var.

(** [escope.Variable], or the dummy that [getVariable] makes in its place;
    [id] is the identity of the object, under which the sets of
    [SegmentInfo] hold it. *)
Record t := mk {
  id : VarId;
  scope : Scope.t;
  references : list Reference.t }.

End Var.

(** A scope together with what hangs below it: [scope.references] and
    [scope.childScopes]. *)
Inductive ScopeTree :=
  | ScopeNode (scope : Scope.t) (references : list Reference.t)
              (childScopes : list ScopeTree).

Definition scopeOf (s : ScopeTree) : Scope.t :=
  match s with ScopeNode scope _ _ => scope end.

(** ** Completions: a value, or a thrown [TypeError] *)

Inductive Completion (A : Type) :=
  | Normal (a : A)
  | TypeError.
Arguments Normal {A} a.
Arguments TypeError {A}.

Definition cbind {A B} (k : A → Completion B) (c : Completion A) : Completion B :=
  match c with
  | Normal a => k a
  | TypeError => TypeError
  end.

#[global] Instance Completion_ret : MRet Completion := @Normal.
#[global] Instance Completion_bind : MBind Completion := @cbind.

(** [xs.filter(p)] where [p] may throw. *)
Fixpoint filterC {A} (p : A → Completion bool) (xs : list A) : Completion (list A) :=
  match xs with
  | [] => Normal []
  | x :: rest =>
      keep ← p x;
      rest' ← filterC p rest;
      Normal (if keep : bool then x :: rest' else rest')
  end.

(** [createReferenceMap(scope, outReferenceMap)] *)
Fixpoint createReferenceMap (scope : ScopeTree)
    (outReferenceMap : gmap NodeId Reference.t) : gmap NodeId Reference.t :=
  match scope with
  | ScopeNode _ references childScopes =>
      let withOwn :=
        foldl (λ m reference, <[AST.id (Reference.identifier reference) := reference]> m)
              outReferenceMap references in
      foldl (λ m childScope,
               if decide (Scope.type (scopeOf childScope) ≠ "function")
               then createReferenceMap childScope m
               else m)
            withOwn childScopes
  end.

(** [x || "*"] for a property name [x] that is a string, or [null]. *)
Definition orStar (x : option string) : string :=
  match x with
  | Some s => if decide (s = EmptyString) then "*" else s
  | None => "*"
  end.

Section Names.

(** [getPropertyName] of eslint-utils: the property name of a member
    access, [None] when it is computed and not known statically. *)
Variable getPropertyName : AST.Node → Scope.t → option string.

(** The [while] loop of [getReferenceName]. *)
Fixpoint getReferenceName_loop (from : Scope.t) (node : AST.Node)
    (names : list string) : Completion (list string) :=
  match AST.parent node with
  | None => TypeError
  | Some parent =>
      if decide (AST.type parent = "MemberExpression"
                 ∧ AST.object parent = Some (AST.id node))
      then getReferenceName_loop from parent
             (names ++ [orStar (getPropertyName parent from)])
      else Normal names
  end.

Definition getReferenceName (reference : Reference.t) : Completion string :=
  names ← getReferenceName_loop (Reference.from reference)
             (Reference.identifier reference)
             [AST.name (Reference.identifier reference)];
  Normal (String.concat "." names).

Definition isLocalVariableWithoutEscape (variable : Var.t)
    (referenceName : string) : Completion bool :=
  let functionScope := Scope.variableScope (Var.scope variable) in
  same ← filterC (λ reference,
                    n ← getReferenceName reference;
                    Normal (bool_decide (n = referenceName)))
                 (Var.references variable);
  Normal (forallb (λ reference,
                     bool_decide (Scope.variableScope (Reference.from reference)
                                  = functionScope)) same).

(** *** The same, in the words of the specification *)

(** The successive ancestors that are member expressions with the node
    below them as their object. *)
Fixpoint objectChain (node : AST.Node) : list AST.Node :=
  match AST.parent node with
  | Some parent =>
      if decide (AST.type parent = "MemberExpression"
                 ∧ AST.object parent = Some (AST.id node))
      then parent :: objectChain parent
      else []
  | None => []
  end.

(** The last node of that chain: the whole member access that [node] heads,
    or [node] itself. *)
Fixpoint chainTop (node : AST.Node) : AST.Node :=
  match AST.parent node with
  | Some parent =>
      if decide (AST.type parent = "MemberExpression"
                 ∧ AST.object parent = Some (AST.id node))
      then chainTop parent
      else node
  | None => node
  end.

(** The property name, and the wildcard exactly when there is none. *)
Definition statedLabel (x : option string) : string :=
  match x with
  | Some s => s
  | None => "*"
  end.

(** The reference name as the specification words it. *)
Definition statedReferenceName (reference : Reference.t) : string :=
  String.concat "."
    (AST.name (Reference.identifier reference)
     :: map (λ member, statedLabel (getPropertyName member (Reference.from reference)))
            (objectChain (Reference.identifier reference))).

End Names.

(** ** The state of one run of the rule *)

Module Frame.
(** [{ upper, codePath, referenceMap }]; [upper] is the rest of the stack. *)
Record t := mk {
  codePath : CodePathId;
  referenceMap : option (gmap NodeId Reference.t) }.
End Frame.

Module Report.
(** The argument of [context.report]. *)
Record t := mk {
  node : AST.Node;
  messageId : string;
  value : string }.
End Report.

(** The variables that [create(context)] closes over, and the reports sent
    to [context] so far. *)
Record State := mkState {
  dummyVariables : gmap string Var.t;
  assignmentReferences : gmap NodeId (list Reference.t);
  segmentInfo : SegmentInfo.t;
  stack : list Frame.t;
  reported : list Report.t }.

Definition initialState : State :=
  {| dummyVariables := ∅; assignmentReferences := ∅;
     segmentInfo := SegmentInfo.new; stack := []; reported := [] |}.

Definition set_dummyVariables (f : gmap string Var.t → gmap string Var.t) (st : State) :=
  {| dummyVariables := f (dummyVariables st);
     assignmentReferences := assignmentReferences st;
     segmentInfo := segmentInfo st; stack := stack st; reported := reported st |}.

Definition set_assignmentReferences
    (f : gmap NodeId (list Reference.t) → gmap NodeId (list Reference.t)) (st : State) :=
  {| dummyVariables := dummyVariables st;
     assignmentReferences := f (assignmentReferences st);
     segmentInfo := segmentInfo st; stack := stack st; reported := reported st |}.

Definition set_segmentInfo (f : SegmentInfo.t → SegmentInfo.t) (st : State) :=
  {| dummyVariables := dummyVariables st;
     assignmentReferences := assignmentReferences st;
     segmentInfo := f (segmentInfo st); stack := stack st; reported := reported st |}.

Definition set_stack (f : list Frame.t → list Frame.t) (st : State) :=
  {| dummyVariables := dummyVariables st;
     assignmentReferences := assignmentReferences st;
     segmentInfo := segmentInfo st; stack := f (stack st); reported := reported st |}.

Definition set_reported (f : list Report.t → list Report.t) (st : State) :=
  {| dummyVariables := dummyVariables st;
     assignmentReferences := assignmentReferences st;
     segmentInfo := segmentInfo st; stack := stack st; reported := f (reported st) |}.

(** A piece of the rule: it reads and updates the state and either returns
    or throws; what it did to the state before throwing stays done. *)
Definition Rule (A : Type) : Type := State → Completion A * State.

#[global] Instance Rule_ret : MRet Rule := λ A a st, (Normal a, st).
#[global] Instance Rule_bind : MBind Rule := λ A B k m st,
  match m st with
  | (Normal a, st') => k a st'
  | (TypeError, st') => (TypeError, st')
  end.

Definition lift {A} (c : Completion A) : Rule A := λ st, (c, st).
Definition gets {A} (f : State → A) : Rule A := λ st, (Normal (f st), st).
Definition modify (f : State → State) : Rule unit := λ st, (Normal tt, f st).

(** [for (const x of xs) { body(x) }] *)
Fixpoint forEach {A} (body : A → Rule unit) (xs : list A) : Rule unit :=
  match xs with
  | [] => mret tt
  | x :: rest => body x ;; forEach body rest
  end.

(** [node.parent], about to be dereferenced. *)
Definition parentOf (node : AST.Node) : Completion AST.Node :=
  match AST.parent node with
  | Some parent => Normal parent
  | None => TypeError
  end.

(** [const { codePath, referenceMap } = stack] *)
Definition currentFrame : Rule Frame.t := λ st,
  match stack st with
  | frame :: _ => (Normal frame, st)
  | [] => (TypeError, st)
  end.

(** ** What the rule is given *)

Module Env.
(** eslint-utils' [getPropertyName]; the AST's nodes by identity; the scope
    manager's table of resolved variables (scope and references of each);
    [sourceCode.getText]; and the scope that [context.getScope()] returns
    when the rule is created. *)
Record t := mk {
  getPropertyName : AST.Node → Scope.t → option string;
  nodeAt : NodeId → AST.Node;
  variables : nat → Scope.t * list Reference.t;
  getText : option NodeId → string;
  globalScope : Scope.t }.
End Env.

(** ** [create(context)] *)

Section Create.

Variable env : Env.t.

Definition resolvedVariable (key : nat) : Var.t :=
  {| Var.id := Resolved key;
     Var.scope := (Env.variables env key).1;
     Var.references := (Env.variables env key).2 |}.

(** The dummy for [name] after [reference] was pushed onto its references;
    [found] is what [dummyVariables.get(name)] gave. *)
Definition pushedDummy (name : string) (found : option Var.t)
    (reference : Reference.t) : Var.t :=
  let variable :=
    match found with
    | Some variable => variable
    | None => {| Var.id := Unresolved name; Var.scope := Env.globalScope env;
                 Var.references := [] |}
    end in
  {| Var.id := Var.id variable; Var.scope := Var.scope variable;
     Var.references := Var.references variable ++ [reference] |}.

(** The dummy lives in [dummyVariables]; the push changes it there. *)
Definition getVariable (reference : Reference.t) : Rule Var.t :=
  match Reference.resolved reference with
  | Some key => mret (resolvedVariable key)
  | None =>
      let name := AST.name (Reference.identifier reference) in
      found ← gets (λ st, dummyVariables st !! name);
      let variable := pushedDummy name found reference in
      modify (set_dummyVariables <[name := variable]>);;
      mret variable
  end.

(** The [while] loop of [getWriteExpr]. *)
Fixpoint getWriteExpr_loop (node : AST.Node) : Completion (option AST.Node) :=
  match AST.parent node with
  | None => TypeError
  | Some parent =>
      if decide (AST.type parent = "AssignmentExpression"
                 ∧ AST.left parent = Some (AST.id node))
      then Normal (Env.nodeAt env <$> AST.right parent)
      else if decide (AST.type parent = "MemberExpression"
                      ∧ AST.object parent = Some (AST.id node))
      then getWriteExpr_loop parent
      else Normal None
  end.

Definition getWriteExpr (reference : Reference.t) : Completion (option AST.Node) :=
  match Reference.writeExpr reference with
  | Some writeExpr => Normal (Some writeExpr)
  | None => getWriteExpr_loop (Reference.identifier reference)
  end.

(** [reference.isRead() && !(writeExpr && writeExpr.parent.operator === "=")] *)
Definition isFreshRead (reference : Reference.t) (writeExpr : option AST.Node)
    : Completion bool :=
  if Reference.isRead reference then
    match writeExpr with
    | Some w =>
        parent ← parentOf w;
        Normal (negb (bool_decide (AST.operator parent = Some "=")))
    | None => Normal true
    end
  else Normal false.

(** [writeExpr && writeExpr.parent.right === writeExpr &&
     !isLocalVariableWithoutEscape(variable, referenceName)] *)
Definition needsVerification (variable : Var.t) (referenceName : string)
    (writeExpr : option AST.Node) : Completion (option AST.Node) :=
  match writeExpr with
  | Some w =>
      parent ← parentOf w;
      if bool_decide (AST.right parent = Some (AST.id w)) then
        isLocal ← isLocalVariableWithoutEscape (Env.getPropertyName env) variable referenceName;
        Normal (if isLocal : bool then None else Some w)
      else Normal None
  | None => Normal None
  end.

(** [refs = assignmentReferences.get(writeExpr)], created when missing, then
    [refs.push(reference)]. *)
Definition pushAssignmentReference (writeExpr : AST.Node) (reference : Reference.t)
    (m : gmap NodeId (list Reference.t)) : gmap NodeId (list Reference.t) :=
  <[AST.id writeExpr := default [] (m !! AST.id writeExpr) ++ [reference]]> m.

Definition onCodePathStart (codePath : CodePathId) (scope : ScopeTree) : Rule unit :=
  let shouldVerify :=
    bool_decide (Scope.type (scopeOf scope) = "function")
    && (AST.async (Scope.block (scopeOf scope))
        || AST.generator (Scope.block (scopeOf scope))) in
  modify (set_stack (λ upper,
    {| Frame.codePath := codePath;
       Frame.referenceMap :=
         if shouldVerify then Some (createReferenceMap scope ∅) else None |}
    :: upper)).

Definition onCodePathEnd : Rule unit := λ st,
  match stack st with
  | _ :: upper => (Normal tt, set_stack (λ _, upper) st)
  | [] => (TypeError, st)
  end.

Definition onCodePathSegmentStart (segment : PathSegment.t) : Rule unit :=
  modify (set_segmentInfo (SegmentInfo.initialize segment)).

(** The [Identifier] handler.  [currentSegments] gives
    [codePath.currentSegments] as it is when the node is visited. *)
Definition Identifier (currentSegments : CodePathId → list SegmentId)
    (node : AST.Node) : Rule unit :=
  frame ← currentFrame;
  match Frame.referenceMap frame ≫= (λ m, m !! AST.id node) with
  | None => mret tt
  | Some reference =>
      variable ← getVariable reference;
      referenceName ← lift (getReferenceName (Env.getPropertyName env) reference);
      writeExpr ← lift (getWriteExpr reference);
      fresh ← lift (isFreshRead reference writeExpr);
      (if fresh : bool then
         modify (set_segmentInfo
                   (SegmentInfo.markAsRead (currentSegments (Frame.codePath frame))
                                           (Var.id variable)))
       else mret tt);;
      target ← lift (needsVerification variable referenceName writeExpr);
      match target with
      | Some w => modify (set_assignmentReferences (pushAssignmentReference w reference))
      | None => mret tt
      end
  end.

(** The body of the [for] loop of [":expression:exit"]. *)
Definition verify (currentSegments : list SegmentId) (node : AST.Node)
    (reference : Reference.t) : Rule unit :=
  variable ← getVariable reference;
  outdated ← gets (λ st, SegmentInfo.isOutdated currentSegments (Var.id variable)
                                                (segmentInfo st));
  if outdated : bool then
    parent ← lift (parentOf node);
    modify (set_reported (λ sent, sent ++
      [{| Report.node := parent; Report.messageId := "nonAtomicUpdate";
          Report.value := Env.getText env (AST.left parent) |}]))
  else mret tt.

(** The [":expression:exit"] handler. *)
Definition expressionExit (currentSegments : CodePathId → list SegmentId)
    (node : AST.Node) : Rule unit :=
  frame ← currentFrame;
  match Frame.referenceMap frame with
  | None => mret tt
  | Some _ =>
      (if decide (AST.type node = "AwaitExpression" ∨ AST.type node = "YieldExpression")
       then modify (set_segmentInfo
                      (SegmentInfo.makeOutdated (currentSegments (Frame.codePath frame))))
       else mret tt);;
      references ← gets (λ st, assignmentReferences st !! AST.id node);
      match references with
      | Some references =>
          modify (set_assignmentReferences (delete (AST.id node)));;
          forEach (verify (currentSegments (Frame.codePath frame)) node) references
      | None => mret tt
      end
  end.

(** ** The traversal, as the sequence of calls it makes into the rule *)

Inductive Event :=
  | CodePathStart (codePath : CodePathId) (scope : ScopeTree)
  | CodePathEnd
  | CodePathSegmentStart (segment : PathSegment.t)
  | EnterIdentifier (currentSegments : CodePathId → list SegmentId) (node : AST.Node)
  | ExitExpression (currentSegments : CodePathId → list SegmentId) (node : AST.Node).

Definition handle (event : Event) : Rule unit :=
  match event with
  | CodePathStart codePath scope => onCodePathStart codePath scope
  | CodePathEnd => onCodePathEnd
  | CodePathSegmentStart segment => onCodePathSegmentStart segment
  | EnterIdentifier currentSegments node => Identifier currentSegments node
  | ExitExpression currentSegments node => expressionExit currentSegments node
  end.

(** A thrown error ends the traversal. *)
Definition run (events : list Event) : Rule unit := forEach handle events.

(** *** The write expression, in the words of the specification *)

(** The reference's own [writeExpr]; otherwise, for the object at the head of
    a member-access chain that is the left side of a plain [=] assignment,
    the right side of that assignment; otherwise none. *)
Definition statedWriteExpr (reference : Reference.t) : Completion (option AST.Node) :=
  match Reference.writeExpr reference with
  | Some writeExpr => Normal (Some writeExpr)
  | None =>
      let top := chainTop (Reference.identifier reference) in
      match AST.parent top with
      | Some assignment =>
          if decide (AST.type assignment = "AssignmentExpression"
                     ∧ AST.operator assignment = Some "="
                     ∧ AST.left assignment = Some (AST.id top))
          then Normal (Env.nodeAt env <$> AST.right assignment)
          else Normal None
      | None => TypeError
      end
  end.

(** The write expression belongs to a plain [=] assignment. *)
Definition feedsPlainAssignment (writeExpr : option AST.Node) : bool :=
  match writeExpr with
  | Some w =>
      match AST.parent w with
      | Some assignment => bool_decide (AST.operator assignment = Some "=")
      | None => false
      end
  | None => false
  end.

(** *** What is said about a traversal *)

(** [P] holds of every event and of the state that the event meets. *)
Fixpoint always (P : State → Event → bool) (events : list Event) (st : State) : bool :=
  match events with
  | [] => true
  | event :: rest =>
      P st event
      && match handle event st with
         | (Normal _, st') => always P rest st'
         | (TypeError, _) => true
         end
  end.

(** The code path of the function body that is being traversed. *)
Definition currentCodePath (st : State) : option CodePathId :=
  Frame.codePath <$> head (stack st).

(** [codePath.currentSegments] as the handler of [event] reads it. *)
Definition activeSegments (st : State) (event : Event) : list SegmentId :=
  match event, stack st with
  | EnterIdentifier currentSegments _, frame :: _
  | ExitExpression currentSegments _, frame :: _ =>
      currentSegments (Frame.codePath frame)
  | _, _ => []
  end.

(** The code-path analysis makes the segments of each code path for that
    code path alone: a segment's previous segments are of its code path, and
    so are the current segments of a code path. *)
Definition ownedAt (owner : SegmentId → CodePathId) (st : State) (event : Event) : bool :=
  match event with
  | CodePathSegmentStart segment =>
      forallb (λ p, bool_decide (owner p = owner (PathSegment.id segment)))
              (PathSegment.prevSegments segment)
  | _ =>
      match currentCodePath st with
      | Some codePath =>
          forallb (λ s, bool_decide (owner s = codePath)) (activeSegments st event)
      | None => true
      end
  end.

Definition isSuspension (node : AST.Node) : bool :=
  bool_decide (AST.type node = "AwaitExpression" ∨ AST.type node = "YieldExpression").

(** No [await] and no [yield] is left while [codePath] is traversed. *)
Definition noSuspensionAt (codePath : CodePathId) (st : State) (event : Event) : bool :=
  match event with
  | ExitExpression _ node =>
      negb (bool_decide (currentCodePath st = Some codePath) && isSuspension node)
  | _ => true
  end.

(** No segment of [codePath] holds an outdated variable. *)
Definition outdatedFree (owner : SegmentId → CodePathId) (codePath : CodePathId)
    (st : State) : Prop :=
  ∀ s info, owner s = codePath → segmentInfo st !! s = Some info →
            SegmentInfo.outdatedReadVariables info = ∅.

(** [getReferenceName] returns for [reference]. *)
Definition namable (reference : Reference.t) : Prop :=
  getReferenceName (Env.getPropertyName env) reference ≠ TypeError.

(** The dummies are filed under their names, belong to the global scope and
    hold references that have a name, as do the references that wait for
    their write expression. *)
Definition dummiesKept (st : State) : Prop :=
  (∀ name variable, dummyVariables st !! name = Some variable →
     Var.id variable = Unresolved name
     ∧ Var.scope variable = Env.globalScope env
     ∧ Forall namable (Var.references variable))
  ∧ (∀ w references, assignmentReferences st !! w = Some references →
       Forall namable references).

(** The reference that the [Identifier] handler finds for [node]. *)
Definition referenceAt (st : State) (node : AST.Node) : option Reference.t :=
  frame ← head (stack st);
  referenceMap ← Frame.referenceMap frame;
  referenceMap !! AST.id node.

(** The variable that [getVariable] returns for [reference]. *)
Definition variableFor (reference : Reference.t) (st : State) : Var.t :=
  match Reference.resolved reference with
  | Some key => resolvedVariable key
  | None =>
      let name := AST.name (Reference.identifier reference) in
      pushedDummy name (dummyVariables st !! name) reference
  end.

(** An identifier that feeds the write expression [w] belongs to a variable
    that is local without escape under the name of the reference. *)
Definition localTargetAt (w : NodeId) (st : State) (event : Event) : bool :=
  match event with
  | EnterIdentifier _ node =>
      match referenceAt st node with
      | Some reference =>
          match getWriteExpr reference with
          | Normal (Some writeExpr) =>
              if decide (AST.id writeExpr = w) then
                match getReferenceName (Env.getPropertyName env) reference with
                | Normal referenceName =>
                    match isLocalVariableWithoutEscape (Env.getPropertyName env)
                            (variableFor reference st) referenceName with
                    | Normal isLocal => isLocal
                    | TypeError => false
                    end
                | TypeError => false
                end
              else true
          | _ => true
          end
      | None => true
      end
  | _ => true
  end.

End Create.

(** ** Small programs to run the definitions on *)

Module Examples.

Definition x : VarId := Resolved 7.
Definition y : VarId := Resolved 8.

(** Segment 1 has read [y] and holds an outdated [x]; segment 3 has read
    [x]; segment 2 has no entry. *)
Definition info1 : SegmentInfo.Info :=
  {| SegmentInfo.outdatedReadVariables := {[x]};
     SegmentInfo.freshReadVariables := {[y]} |}.

Definition info3 : SegmentInfo.Info :=
  {| SegmentInfo.outdatedReadVariables := ∅;
     SegmentInfo.freshReadVariables := {[x]} |}.

Definition store : SegmentInfo.t := <[1 := info1]> (<[3 := info3]> ∅).

(** Segment 4 joins segments 1, 2 and 3. *)
Definition joinSegment : PathSegment.t :=
  {| PathSegment.id := 4; PathSegment.prevSegments := [1; 2; 3] |}.

(** Segment 1 is initialized, [x] is read on it and a suspension follows;
    segment 2 is named but never initialized. *)
Definition calls : list SegmentInfo.Call :=
  [ SegmentInfo.CallInitialize (PathSegment.mk 1 []);
    SegmentInfo.CallMarkAsRead [1; 2] x;
    SegmentInfo.CallMakeOutdated [2; 1] ].

(** *** [async function f() { a.b <op> <rhs> c; }]

    [op] is the assignment operator and [rhs] the type of the node around
    [c] on the right: ["AwaitExpression"] for [await c], ["UnaryExpression"]
    for [-c]. *)

Definition plain (id : NodeId) (type name : string) (parent : option AST.Node) : AST.Node :=
  {| AST.id := id; AST.type := type; AST.name := name; AST.operator := None;
     AST.object := None; AST.left := None; AST.right := None;
     AST.async := false; AST.generator := false; AST.parent := parent |}.

Definition program : AST.Node := plain 0 "Program" EmptyString None.

Definition f : AST.Node :=
  {| AST.id := 1; AST.type := "FunctionDeclaration"; AST.name := EmptyString;
     AST.operator := None; AST.object := None; AST.left := None; AST.right := None;
     AST.async := true; AST.generator := false; AST.parent := Some program |}.

Definition body : AST.Node := plain 2 "BlockStatement" EmptyString (Some f).
Definition statement : AST.Node := plain 3 "ExpressionStatement" EmptyString (Some body).

Definition assignment (op : string) : AST.Node :=
  {| AST.id := 4; AST.type := "AssignmentExpression"; AST.name := EmptyString;
     AST.operator := Some op; AST.object := None;
     AST.left := Some 5; AST.right := Some 8;
     AST.async := false; AST.generator := false; AST.parent := Some statement |}.

Definition member (op : string) : AST.Node :=
  {| AST.id := 5; AST.type := "MemberExpression"; AST.name := EmptyString;
     AST.operator := None; AST.object := Some 6; AST.left := None; AST.right := None;
     AST.async := false; AST.generator := false; AST.parent := Some (assignment op) |}.

Definition a (op : string) : AST.Node := plain 6 "Identifier" "a" (Some (member op)).
Definition b (op : string) : AST.Node := plain 7 "Identifier" "b" (Some (member op)).
Definition right (op rhs : string) : AST.Node := plain 8 rhs EmptyString (Some (assignment op)).
Definition c (op rhs : string) : AST.Node := plain 9 "Identifier" "c" (Some (right op rhs)).

Definition nodeAt (op rhs : string) (id : NodeId) : AST.Node :=
  match id with
  | 1 => f | 2 => body | 3 => statement | 4 => assignment op | 5 => member op
  | 6 => a op | 7 => b op | 8 => right op rhs | 9 => c op rhs | _ => program
  end.

Definition globalScope : Scope.t :=
  {| Scope.id := 0; Scope.type := "global"; Scope.variableScope := 0;
     Scope.block := program |}.

Definition scopeF : Scope.t :=
  {| Scope.id := 1; Scope.type := "function"; Scope.variableScope := 1;
     Scope.block := f |}.

(** [a] is read, and written through; [c] is read.  [a] resolves to variable
    0 or is unresolved; [c] resolves to variable 1. *)
Definition refA (op : string) (resolved : option nat) : Reference.t :=
  {| Reference.identifier := a op; Reference.resolved := resolved;
     Reference.from := scopeF; Reference.isRead := true;
     Reference.writeExpr := None |}.

Definition refC (op rhs : string) : Reference.t :=
  {| Reference.identifier := c op rhs; Reference.resolved := Some 1;
     Reference.from := scopeF; Reference.isRead := true;
     Reference.writeExpr := None |}.

Definition treeF (op rhs : string) (resolved : option nat) : ScopeTree :=
  ScopeNode scopeF [refA op resolved; refC op rhs] [].

(** [home] is the scope in which variable 0 is declared; [label] is what
    [getPropertyName] finds for the member access. *)
Definition env (op rhs : string) (home : Scope.t) (label : option string) : Env.t :=
  {| Env.getPropertyName := λ node _, if decide (AST.id node = 5) then label else None;
     Env.nodeAt := nodeAt op rhs;
     Env.variables := λ key,
       match key with
       | 0 => (home, [refA op (Some 0)])
       | _ => (globalScope, [refC op rhs])
       end;
     Env.getText := λ node, match node with Some 5 => "a.b" | _ => EmptyString end;
     Env.globalScope := globalScope |}.

(** Everything happens on segment 1 of code path 1. *)
Definition currentSegments : CodePathId → list SegmentId := λ _, [1].

(** The calls up to the first identifier of the body. *)
Definition entering (op rhs : string) (resolved : option nat) : list Event :=
  [ CodePathStart 1 (treeF op rhs resolved);
    CodePathSegmentStart (PathSegment.mk 1 []) ].

(** The whole traversal of [f]. *)
Definition traversal (op rhs : string) (resolved : option nat) : list Event :=
  entering op rhs resolved ++
  [ EnterIdentifier currentSegments (a op);
    ExitExpression currentSegments (a op);
    EnterIdentifier currentSegments (b op);
    ExitExpression currentSegments (b op);
    ExitExpression currentSegments (member op);
    EnterIdentifier currentSegments (c op rhs);
    ExitExpression currentSegments (c op rhs);
    ExitExpression currentSegments (right op rhs);
    ExitExpression currentSegments (assignment op);
    CodePathEnd ].

End Examples.

(** ** More words for statements *)

(** The references that [createReferenceMap] files for a scope, in the
    order in which it files them: those of the scope, then those of each
    child scope that is not a function scope, with its own children. *)
Fixpoint collected (scope : ScopeTree) : list Reference.t :=
  match scope with
  | ScopeNode _ references childScopes =>
      references
      ++ concat (map (λ childScope,
                        if decide (Scope.type (scopeOf childScope) ≠ "function")
                        then collected childScope
                        else [])
                     childScopes)
  end.

(** [outReferenceMap.set(reference.identifier, reference)] for each of
    [references] in turn. *)
Definition fileAll (references : list Reference.t) (m : gmap NodeId Reference.t)
    : gmap NodeId Reference.t :=
  foldl (λ m reference, <[AST.id (Reference.identifier reference) := reference]> m)
        m references.

(** [onCodePathStart] makes a reference map for this scope. *)
Definition resumable (scope : ScopeTree) : bool :=
  bool_decide (Scope.type (scopeOf scope) = "function")
  && (AST.async (Scope.block (scopeOf scope))
      || AST.generator (Scope.block (scopeOf scope))).

(** The event is neither the start nor the end of a code path. *)
Definition withinCodePath (event : Event) : bool :=
  match event with
  | CodePathStart _ _ | CodePathEnd => false
  | _ => true
  end.

(** The event leaves an [await] or a [yield]. *)
Definition suspends (event : Event) : bool :=
  match event with
  | ExitExpression _ node => isSuspension node
  | _ => false
  end.

(** The event is a visit of an identifier, or the exit of an expression
    other than [w], while [segment] is a current segment of [codePath]. *)
Definition passesBy (codePath : CodePathId) (segment : SegmentId) (w : NodeId)
    (event : Event) : bool :=
  match event with
  | EnterIdentifier currentSegments _ =>
      bool_decide (segment ∈ currentSegments codePath)
  | ExitExpression currentSegments node =>
      bool_decide (segment ∈ currentSegments codePath)
      && negb (bool_decide (AST.id node = w))
  | _ => false
  end.

Section Statements.

Variable env : Env.t.

(** The report that [":expression:exit"] sends for an assignment. *)
Definition reportFor (assignment : AST.Node) : Report.t :=
  {| Report.node := assignment; Report.messageId := "nonAtomicUpdate";
     Report.value := Env.getText env (AST.left assignment) |}.

(** The variable of [reference] is outdated on [currentSegments]. *)
Definition outdatedIn (currentSegments : list SegmentId) (st : State)
    (reference : Reference.t) : bool :=
  SegmentInfo.isOutdated currentSegments (Var.id (variableFor env reference st))
                         (segmentInfo st).

(** [getVariable] for each of [references] in turn. *)
Definition getVariables (references : list Reference.t) : Rule unit :=
  forEach (λ reference, getVariable env reference ≫= λ _, mret tt) references.

(** The references of the dummy filed under [name], if there is one. *)
Definition dummyReferences (st : State) (name : string) : list Reference.t :=
  from_option Var.references [] (dummyVariables st !! name).

(** What holds of a reference that waits for [w] after its variable was read
    on [segment]: the variable is outdated there, or still fresh as long as
    nothing was suspended. *)
Definition waiting (frame : Frame.t) (upper : list Frame.t) (segment : SegmentId)
    (w : NodeId) (reference : Reference.t) (variable : VarId) (suspended : bool)
    (st : State) : Prop :=
  stack st = frame :: upper
  ∧ Frame.referenceMap frame ≠ None
  ∧ (∃ references, assignmentReferences st !! w = Some references
                   ∧ reference ∈ references)
  ∧ Var.id (variableFor env reference st) = variable
  ∧ ∃ info, segmentInfo st !! segment = Some info
            ∧ (variable ∈ SegmentInfo.outdatedReadVariables info
               ∨ (suspended = false
                  ∧ variable ∈ SegmentInfo.freshReadVariables info)).

End Statements.

(** The segments that start in [events], in order. *)
Definition startedSegments (events : list Event) : list PathSegment.t :=
  omap (λ event, match event with
                 | CodePathSegmentStart segment => Some segment
                 | _ => None
                 end) events.

(** The number of code paths that are open after [events], when [depth]
    were open before; [None] when more are ended than were open. *)
Fixpoint depthAfter (events : list Event) (depth : nat) : option nat :=
  match events with
  | [] => Some depth
  | CodePathStart _ _ :: rest => depthAfter rest (S depth)
  | CodePathEnd :: rest =>
      match depth with
      | 0 => None
      | S depth' => depthAfter rest depth'
      end
  | _ :: rest => depthAfter rest depth
  end.

(** ** More small programs *)

Module MoreExamples.

(** *** [async function f() { let d = c; }] *)

Definition declaration : AST.Node :=
  Examples.plain 10 "VariableDeclaration" EmptyString (Some Examples.body).

Definition declarator : AST.Node :=
  Examples.plain 11 "VariableDeclarator" EmptyString (Some declaration).

Definition d : AST.Node := Examples.plain 12 "Identifier" "d" (Some declarator).
Definition init : AST.Node := Examples.plain 13 "Identifier" "c" (Some declarator).

(** The reference that writes [d]; its write expression is the initializer. *)
Definition refD : Reference.t :=
  {| Reference.identifier := d; Reference.resolved := Some 2;
     Reference.from := Examples.scopeF; Reference.isRead := false;
     Reference.writeExpr := Some init |}.

Definition env : Env.t :=
  Examples.env "=" "UnaryExpression" Examples.globalScope (Some "b").

(** The state in which the body of [f] is traversed. *)
Definition inF : State :=
  set_stack (λ _, [ {| Frame.codePath := 1;
                       Frame.referenceMap := Some {[ 12 := refD ]} |} ])
            initialState.

(** *** The program, outside every function *)

Definition programScope : ScopeTree := ScopeNode Examples.globalScope [] [].

(** A node with the identity of the right side of the assignment of
    [Examples], and no parent. *)
Definition orphan : AST.Node := Examples.plain 8 "AwaitExpression" EmptyString None.

End MoreExamples.

(** ** A function expression on the right of an assignment *)

Module Nested.

(** *** [let x; async function F() { x = async function inner() { x; await g(); }; }] *)

Definition program : AST.Node := Examples.plain 0 "Program" EmptyString None.
Definition declaration : AST.Node :=
  Examples.plain 1 "VariableDeclaration" EmptyString (Some program).
Definition declarator : AST.Node :=
  Examples.plain 2 "VariableDeclarator" EmptyString (Some declaration).
Definition declared : AST.Node := Examples.plain 3 "Identifier" "x" (Some declarator).

Definition F : AST.Node :=
  {| AST.id := 4; AST.type := "FunctionDeclaration"; AST.name := EmptyString;
     AST.operator := None; AST.object := None; AST.left := None; AST.right := None;
     AST.async := true; AST.generator := false; AST.parent := Some program |}.

Definition nameF : AST.Node := Examples.plain 5 "Identifier" "F" (Some F).
Definition bodyF : AST.Node := Examples.plain 6 "BlockStatement" EmptyString (Some F).
Definition statement : AST.Node :=
  Examples.plain 7 "ExpressionStatement" EmptyString (Some bodyF).

Definition assignment : AST.Node :=
  {| AST.id := 8; AST.type := "AssignmentExpression"; AST.name := EmptyString;
     AST.operator := Some "="; AST.object := None;
     AST.left := Some 9; AST.right := Some 10;
     AST.async := false; AST.generator := false; AST.parent := Some statement |}.

Definition written : AST.Node := Examples.plain 9 "Identifier" "x" (Some assignment).

Definition inner : AST.Node :=
  {| AST.id := 10; AST.type := "FunctionExpression"; AST.name := EmptyString;
     AST.operator := None; AST.object := None; AST.left := None; AST.right := None;
     AST.async := true; AST.generator := false; AST.parent := Some assignment |}.

Definition nameInner : AST.Node := Examples.plain 11 "Identifier" "inner" (Some inner).
Definition bodyInner : AST.Node := Examples.plain 12 "BlockStatement" EmptyString (Some inner).
Definition first : AST.Node :=
  Examples.plain 13 "ExpressionStatement" EmptyString (Some bodyInner).
Definition read : AST.Node := Examples.plain 14 "Identifier" "x" (Some first).
Definition second : AST.Node :=
  Examples.plain 15 "ExpressionStatement" EmptyString (Some bodyInner).
Definition awaited : AST.Node := Examples.plain 16 "AwaitExpression" EmptyString (Some second).
Definition call : AST.Node := Examples.plain 17 "CallExpression" EmptyString (Some awaited).
Definition g : AST.Node := Examples.plain 18 "Identifier" "g" (Some call).

Definition nodeAt (id : NodeId) : AST.Node :=
  match id with
  | 1 => declaration | 2 => declarator | 3 => declared | 4 => F | 5 => nameF
  | 6 => bodyF | 7 => statement | 8 => assignment | 9 => written | 10 => inner
  | 11 => nameInner | 12 => bodyInner | 13 => first | 14 => read | 15 => second
  | 16 => awaited | 17 => call | 18 => g | _ => program
  end.

(** The scopes: the global one, that of [F], the one that holds the name
    [inner], and that of [inner]. *)
Definition globalScope : Scope.t :=
  {| Scope.id := 0; Scope.type := "global"; Scope.variableScope := 0;
     Scope.block := program |}.

Definition scopeF : Scope.t :=
  {| Scope.id := 1; Scope.type := "function"; Scope.variableScope := 1;
     Scope.block := F |}.

Definition scopeName : Scope.t :=
  {| Scope.id := 2; Scope.type := "function-expression-name"; Scope.variableScope := 1;
     Scope.block := inner |}.

Definition scopeInner : Scope.t :=
  {| Scope.id := 3; Scope.type := "function"; Scope.variableScope := 3;
     Scope.block := inner |}.

(** [x] is variable 0, declared in the global scope; [F] writes it, with the
    function expression as the write expression, and [inner] reads it.  [g]
    is not declared. *)
Definition refWritten : Reference.t :=
  {| Reference.identifier := written; Reference.resolved := Some 0;
     Reference.from := scopeF; Reference.isRead := false;
     Reference.writeExpr := Some inner |}.

Definition refRead : Reference.t :=
  {| Reference.identifier := read; Reference.resolved := Some 0;
     Reference.from := scopeInner; Reference.isRead := true;
     Reference.writeExpr := None |}.

Definition refG : Reference.t :=
  {| Reference.identifier := g; Reference.resolved := None;
     Reference.from := scopeInner; Reference.isRead := true;
     Reference.writeExpr := None |}.

Definition treeInner : ScopeTree := ScopeNode scopeInner [refRead; refG] [].
Definition treeF : ScopeTree :=
  ScopeNode scopeF [refWritten] [ScopeNode scopeName [] [treeInner]].
Definition treeProgram : ScopeTree := ScopeNode globalScope [] [treeF].

Definition env : Env.t :=
  {| Env.getPropertyName := λ _ _, None;
     Env.nodeAt := nodeAt;
     Env.variables := λ _, (globalScope, [refWritten; refRead]);
     Env.getText := λ node, match node with Some 9 => "x" | _ => EmptyString end;
     Env.globalScope := globalScope |}.

(** The code paths of the program, of [F] and of [inner]; each has one
    segment, with the number of its code path. *)
Definition codePathProgram : CodePathId := 1.
Definition codePathF : CodePathId := 2.
Definition codePathInner : CodePathId := 3.

Definition owner : SegmentId → CodePathId := λ segment, segment.
Definition currentSegments : CodePathId → list SegmentId := λ codePath, [codePath].

(** The calls up to the exit of the function expression: the code path of
    a function starts before the function is entered and ends after it is
    left, so that [inner] is left while its own code path is the current
    one. *)
Definition upToFunctionExit : list Event :=
  [ CodePathStart codePathProgram treeProgram;
    CodePathSegmentStart (PathSegment.mk 1 []);
    EnterIdentifier currentSegments declared;
    ExitExpression currentSegments declared;
    CodePathStart codePathF treeF;
    CodePathSegmentStart (PathSegment.mk 2 []);
    EnterIdentifier currentSegments nameF;
    ExitExpression currentSegments nameF;
    EnterIdentifier currentSegments written;
    ExitExpression currentSegments written;
    CodePathStart codePathInner treeInner;
    CodePathSegmentStart (PathSegment.mk 3 []);
    EnterIdentifier currentSegments nameInner;
    ExitExpression currentSegments nameInner;
    EnterIdentifier currentSegments read;
    ExitExpression currentSegments read;
    EnterIdentifier currentSegments g;
    ExitExpression currentSegments g;
    ExitExpression currentSegments call;
    ExitExpression currentSegments awaited ].

(** The whole traversal. *)
Definition traversal : list Event :=
  upToFunctionExit ++
  [ ExitExpression currentSegments inner;
    CodePathEnd;
    ExitExpression currentSegments assignment;
    CodePathEnd;
    CodePathEnd ].

End Nested.

(** * Properties *)

(** ** The segment store *)

Section SegmentInfoFacts.

Import SegmentInfo.

Implicit Types (self : SegmentInfo.t) (segments prevs : list SegmentId)
               (variable : VarId) (s : SegmentId).

(** *** [initialize] *)

(** The loop of [initialize] adds the join of the predecessors that have
    an entry to what it started from. *)
Lemma initialize_fold self prevs acc :
  foldl (initialize_step self) acc prevs
  = (acc.1 ∪ outdatedReadVariables (join (omap (λ p, self !! p) prevs)),
     acc.2 ∪ freshReadVariables (join (omap (λ p, self !! p) prevs))).
Proof.
  revert acc. induction prevs as [|p prevs IH]; intros [o f]; simpl.
  - by rewrite !union_empty_r_L.
  - rewrite IH. unfold initialize_step.
    destruct (self !! p) as [info|]; simpl; [|done].
    by rewrite !union_assoc_L.
Qed.

Lemma initialize_lookup segment self :
  initialize segment self !! PathSegment.id segment
  = Some (join (omap (λ p, self !! p) (PathSegment.prevSegments segment))).
Proof.
  unfold initialize. rewrite lookup_insert_eq, initialize_fold. simpl.
  by rewrite !union_empty_l_L.
Qed.

Lemma initialize_lookup_ne segment self s :
  s ≠ PathSegment.id segment → initialize segment self !! s = self !! s.
Proof. intros Hne. unfold initialize. by rewrite lookup_insert_ne. Qed.

Lemma join_elem (infos : list Info) (info : Info) :
  info ∈ infos →
  outdatedReadVariables info ⊆ outdatedReadVariables (join infos)
  ∧ freshReadVariables info ⊆ freshReadVariables (join infos).
Proof.
  intros Hin. simpl.
  split; intros v Hv; apply elem_of_union_list; eexists; (split; [|exact Hv]);
    apply list_elem_of_fmap; eauto.
Qed.

(** *** [markAsRead] and [makeOutdated], segment by segment *)

Lemma addFresh_idemp variable info :
  addFresh variable (addFresh variable info) = addFresh variable info.
Proof. unfold addFresh. simpl. f_equal. set_solver. Qed.

Lemma outdate_idemp info : outdate (outdate info) = outdate info.
Proof. unfold outdate. simpl. f_equal. set_solver. Qed.

Lemma markAsRead_step_lookup variable self q s :
  markAsRead_step variable self q !! s
  = if decide (q = s) then addFresh variable <$> self !! s else self !! s.
Proof.
  unfold markAsRead_step. case_decide as Hq.
  - subst q. destruct (self !! s) as [info|] eqn:Hs; simpl.
    + by rewrite lookup_insert_eq.
    + by rewrite Hs.
  - destruct (self !! q); [by rewrite lookup_insert_ne|done].
Qed.

Lemma markAsRead_lookup segments variable self s :
  markAsRead segments variable self !! s
  = if decide (s ∈ segments) then addFresh variable <$> self !! s else self !! s.
Proof.
  unfold markAsRead. revert self.
  induction segments as [|q segments IH]; intros self; simpl.
  - done.
  - rewrite IH, markAsRead_step_lookup.
    destruct (decide (q = s)) as [->|Hq], (decide (s ∈ segments)) as [Hin|Hin],
      (decide (s ∈ _ :: segments)) as [Hin'|Hin'];
      try done; try (exfalso; set_solver).
    destruct (self !! s); simpl; [by rewrite addFresh_idemp|done].
Qed.

Lemma makeOutdated_step_lookup (acc : SegmentInfo.t * gset VarId) q s :
  (makeOutdated_step acc q).1 !! s
  = if decide (q = s) then outdate <$> acc.1 !! s else acc.1 !! s.
Proof.
  unfold makeOutdated_step. case_decide as Hq.
  - subst q. destruct (acc.1 !! s) as [info|] eqn:Hs; simpl.
    + by rewrite lookup_insert_eq.
    + by rewrite Hs.
  - destruct (acc.1 !! q); simpl; [by rewrite lookup_insert_ne|done].
Qed.

Lemma makeOutdated_fold_lookup segments (acc : SegmentInfo.t * gset VarId) s :
  (foldl makeOutdated_step acc segments).1 !! s
  = if decide (s ∈ segments) then outdate <$> acc.1 !! s else acc.1 !! s.
Proof.
  revert acc. induction segments as [|q segments IH]; intros acc; simpl.
  - done.
  - rewrite IH, makeOutdated_step_lookup.
    destruct (decide (q = s)) as [->|Hq], (decide (s ∈ segments)) as [Hin|Hin],
      (decide (s ∈ _ :: segments)) as [Hin'|Hin'];
      try done; try (exfalso; set_solver).
    destruct (acc.1 !! s); simpl; [by rewrite outdate_idemp|done].
Qed.

Lemma makeOutdated_lookup segments self s :
  makeOutdated segments self !! s
  = if decide (s ∈ segments) then outdate <$> self !! s else self !! s.
Proof. unfold makeOutdated. by rewrite makeOutdated_fold_lookup. Qed.

(** *** [isOutdated] *)

Lemma isOutdated_true segments variable self :
  isOutdated segments variable self = true ↔
  ∃ s info, s ∈ segments ∧ self !! s = Some info
            ∧ variable ∈ outdatedReadVariables info.
Proof.
  induction segments as [|q segments IH]; simpl.
  - split; [done|]. intros (s & i & Hin & _). by apply elem_of_nil in Hin.
  - destruct (self !! q) as [info|] eqn:Hq.
    + case_decide as Hv.
      * split; [|done]. intros _. exists q, info. split; [by left|done].
      * rewrite IH. split; intros (s & i & Hin & Hs & Hvi).
        -- exists s, i. split; [by right|done].
        -- apply elem_of_cons in Hin as [->|Hin]; [congruence|by exists s, i].
    + rewrite IH. split; intros (s & i & Hin & Hs & Hvi).
      * exists s, i. split; [by right|done].
      * apply elem_of_cons in Hin as [->|Hin]; [congruence|by exists s, i].
Qed.


(** *** Segments that were never initialized *)

Lemma call_lookup_None self c s :
  initializes s c = false → self !! s = None → call self c !! s = None.
Proof.
  intros Hc Hs. destruct c as [segment|segments variable|segments]; simpl in *.
  - apply bool_decide_eq_false in Hc. by rewrite initialize_lookup_ne.
  - rewrite markAsRead_lookup, Hs. by case_decide.
  - rewrite makeOutdated_lookup, Hs. by case_decide.
Qed.

Lemma calls_lookup_None calls self s :
  forallb (λ c, negb (initializes s c)) calls = true →
  self !! s = None → foldl call self calls !! s = None.
Proof.
  revert self. induction calls as [|c calls IH]; intros self Hcs Hs; [done|].
  simpl in Hcs. apply andb_true_iff in Hcs as [Hc Hcs].
  apply negb_true_iff in Hc. simpl. apply IH; [done|].
  by apply call_lookup_None.
Qed.

Lemma elem_of_skip s k (before after : list SegmentId) :
  k ≠ s → k ∈ before ++ s :: after ↔ k ∈ before ++ after.
Proof. intros Hk. rewrite !elem_of_app, elem_of_cons. naive_solver. Qed.

Lemma markAsRead_skip self s before after variable :
  self !! s = None →
  markAsRead (before ++ s :: after) variable self
  = markAsRead (before ++ after) variable self.
Proof.
  intros Hs. apply map_eq. intros k. rewrite !markAsRead_lookup.
  destruct (decide (k = s)) as [->|Hk].
  - rewrite Hs. by repeat case_decide.
  - pose proof (elem_of_skip s k before after Hk).
    repeat case_decide; naive_solver.
Qed.

Lemma makeOutdated_skip self s before after :
  self !! s = None →
  makeOutdated (before ++ s :: after) self = makeOutdated (before ++ after) self.
Proof.
  intros Hs. apply map_eq. intros k. rewrite !makeOutdated_lookup.
  destruct (decide (k = s)) as [->|Hk].
  - rewrite Hs. by repeat case_decide.
  - pose proof (elem_of_skip s k before after Hk).
    repeat case_decide; naive_solver.
Qed.

Lemma isOutdated_skip self s before after variable :
  self !! s = None →
  isOutdated (before ++ s :: after) variable self
  = isOutdated (before ++ after) variable self.
Proof.
  intros Hs. induction before as [|q before IH]; simpl.
  - by rewrite Hs.
  - by rewrite IH.
Qed.

Lemma initialize_skip self s before after id :
  self !! s = None →
  initialize (PathSegment.mk id (before ++ s :: after)) self
  = initialize (PathSegment.mk id (before ++ after)) self.
Proof.
  intros Hs. unfold initialize. simpl. rewrite !initialize_fold.
  rewrite !omap_app. simpl. by rewrite Hs.
Qed.

End SegmentInfoFacts.

(** C3.  Join monotonicity.  When a segment is initialized, whatever is
    outdated on one of its previous segments is outdated on the new segment,
    and whatever is fresh on one of them is fresh on it. *)
Theorem initialize_join_monotone (self : SegmentInfo.t) (segment : PathSegment.t)
    (prevSegment : SegmentId) (info : SegmentInfo.Info) :
  prevSegment ∈ PathSegment.prevSegments segment →
  self !! prevSegment = Some info →
  ∃ info', SegmentInfo.initialize segment self !! PathSegment.id segment = Some info'
    ∧ (∀ variable, variable ∈ SegmentInfo.outdatedReadVariables info →
                   variable ∈ SegmentInfo.outdatedReadVariables info')
    ∧ (∀ variable, variable ∈ SegmentInfo.freshReadVariables info →
                   variable ∈ SegmentInfo.freshReadVariables info').
Proof.
  intros Hin Hp. eexists. split; [apply initialize_lookup|].
  apply join_elem. apply list_elem_of_omap. eauto.
Qed.

Lemma initialize_join_monotone_witness :
  ∃ info', SegmentInfo.initialize Examples.joinSegment Examples.store
             !! PathSegment.id Examples.joinSegment = Some info'
    ∧ (∀ variable, variable ∈ SegmentInfo.outdatedReadVariables Examples.info1 →
                   variable ∈ SegmentInfo.outdatedReadVariables info')
    ∧ (∀ variable, variable ∈ SegmentInfo.freshReadVariables Examples.info1 →
                   variable ∈ SegmentInfo.freshReadVariables info').
Proof.
  apply (initialize_join_monotone Examples.store Examples.joinSegment 1 Examples.info1).
  - vm_compute. apply list_elem_of_here.
  - reflexivity.
Defined.

(** C4.  After [makeOutdated(segments)], a segment of [segments] that has
    an entry holds, as outdated, what was outdated or fresh before, and
    nothing fresh; a segment outside [segments] is as it was. *)
Theorem makeOutdated_postcondition (segments : list SegmentId) (self : SegmentInfo.t)
    (segment : SegmentId) :
  (∀ info, segment ∈ segments → self !! segment = Some info →
     SegmentInfo.makeOutdated segments self !! segment
     = Some {| SegmentInfo.outdatedReadVariables :=
                 SegmentInfo.outdatedReadVariables info
                 ∪ SegmentInfo.freshReadVariables info;
               SegmentInfo.freshReadVariables := ∅ |})
  ∧ (segment ∉ segments →
     SegmentInfo.makeOutdated segments self !! segment = self !! segment).
Proof.
  rewrite makeOutdated_lookup. split.
  - intros info Hin Hs. rewrite decide_True by done. by rewrite Hs.
  - intros Hin. by rewrite decide_False.
Qed.

Lemma makeOutdated_postcondition_witness :
  SegmentInfo.makeOutdated [1; 2] Examples.store !! 1
  = Some {| SegmentInfo.outdatedReadVariables := {[Examples.x]} ∪ {[Examples.y]};
            SegmentInfo.freshReadVariables := ∅ |}
  ∧ SegmentInfo.makeOutdated [1; 2] Examples.store !! 3 = Examples.store !! 3.
Proof.
  destruct (makeOutdated_postcondition [1; 2] Examples.store 1) as [H1 _].
  destruct (makeOutdated_postcondition [1; 2] Examples.store 3) as [_ H3].
  split.
  - apply (H1 Examples.info1); [apply list_elem_of_here|reflexivity].
  - apply H3. rewrite !not_elem_of_cons. repeat split; try lia. apply not_elem_of_nil.
Defined.

(** C10.  A segment on which [initialize] was never called has no entry, and
    every method passes over it: [markAsRead] and [makeOutdated] leave the
    whole store as it is, [isOutdated] answers [false] for it, and among
    other segments it counts for nothing, also as a previous segment in
    [initialize].  None of the methods can throw: they are total functions
    of the store. *)
Theorem uninitialized_segment_skipped (calls : list SegmentInfo.Call)
    (segment : SegmentId) :
  forallb (λ c, negb (SegmentInfo.initializes segment c)) calls = true →
  let self := foldl SegmentInfo.call SegmentInfo.new calls in
  self !! segment = None
  ∧ (∀ variable, SegmentInfo.markAsRead [segment] variable self = self)
  ∧ SegmentInfo.makeOutdated [segment] self = self
  ∧ (∀ variable, SegmentInfo.isOutdated [segment] variable self = false)
  ∧ (∀ before after variable,
       SegmentInfo.markAsRead (before ++ segment :: after) variable self
       = SegmentInfo.markAsRead (before ++ after) variable self)
  ∧ (∀ before after,
       SegmentInfo.makeOutdated (before ++ segment :: after) self
       = SegmentInfo.makeOutdated (before ++ after) self)
  ∧ (∀ before after variable,
       SegmentInfo.isOutdated (before ++ segment :: after) variable self
       = SegmentInfo.isOutdated (before ++ after) variable self)
  ∧ (∀ before after id,
       SegmentInfo.initialize (PathSegment.mk id (before ++ segment :: after)) self
       = SegmentInfo.initialize (PathSegment.mk id (before ++ after)) self).
Proof.
  intros Hcalls self.
  assert (Hs : self !! segment = None).
  { apply calls_lookup_None; [done|]. apply lookup_empty. }
  split; [done|]. repeat split.
  - intros variable. apply (markAsRead_skip self segment [] [] variable Hs).
  - apply (makeOutdated_skip self segment [] [] Hs).
  - intros variable. apply (isOutdated_skip self segment [] [] variable Hs).
  - intros. by apply markAsRead_skip.
  - intros. by apply makeOutdated_skip.
  - intros. by apply isOutdated_skip.
  - intros. by apply initialize_skip.
Qed.

Lemma uninitialized_segment_skipped_witness :
  let self := foldl SegmentInfo.call SegmentInfo.new Examples.calls in
  self !! 2 = None
  ∧ SegmentInfo.markAsRead [2] Examples.x self = self
  ∧ SegmentInfo.makeOutdated [2] self = self
  ∧ SegmentInfo.isOutdated [1; 2] Examples.x self
    = SegmentInfo.isOutdated [1] Examples.x self
  ∧ SegmentInfo.initialize (PathSegment.mk 4 [1; 2]) self
    = SegmentInfo.initialize (PathSegment.mk 4 [1]) self.
Proof.
  destruct (uninitialized_segment_skipped Examples.calls 2)
    as (H0 & H1 & H2 & _ & _ & _ & H6 & H7); [reflexivity|].
  intros self.
  exact (conj H0 (conj (H1 Examples.x) (conj H2
          (conj (H6 [1] [] Examples.x) (H7 [1] [] 4))))).
Defined.

(** ** The handlers *)

Section RuleFacts.
Context (env : Env.t).

Lemma bind_eq {A B} (m : Rule A) (k : A → Rule B) st :
  (m ≫= k) st = match m st with
                | (Normal a, st') => k a st'
                | (TypeError, st') => (TypeError, st')
                end.
Proof. reflexivity. Qed.

(** The state after [getVariable]: only a dummy's entry can have changed. *)
Lemma getVariable_eq reference st :
  getVariable env reference st
  = (Normal (variableFor env reference st),
     match Reference.resolved reference with
     | Some _ => st
     | None =>
         set_dummyVariables
           <[AST.name (Reference.identifier reference) := variableFor env reference st]> st
     end).
Proof.
  unfold getVariable, variableFor. by destruct (Reference.resolved reference).
Qed.

Lemma Identifier_found currentSegments node st frame upper reference :
  stack st = frame :: upper →
  referenceAt st node = Some reference →
  let variable := variableFor env reference st in
  let st1 := (getVariable env reference st).2 in
  Identifier env currentSegments node st
  = match getReferenceName (Env.getPropertyName env) reference with
    | TypeError => (TypeError, st1)
    | Normal referenceName =>
    match getWriteExpr env reference with
    | TypeError => (TypeError, st1)
    | Normal writeExpr =>
    match isFreshRead reference writeExpr with
    | TypeError => (TypeError, st1)
    | Normal fresh =>
      let st2 := if fresh : bool
                 then set_segmentInfo (SegmentInfo.markAsRead
                        (currentSegments (Frame.codePath frame)) (Var.id variable)) st1
                 else st1 in
      match needsVerification env variable referenceName writeExpr with
      | TypeError => (TypeError, st2)
      | Normal (Some w) =>
          (Normal tt, set_assignmentReferences (pushAssignmentReference w reference) st2)
      | Normal None => (Normal tt, st2)
      end
    end end end.
Proof.
  intros Hstack Href. simpl.
  unfold Identifier. rewrite bind_eq. unfold currentFrame at 1. rewrite Hstack.
  unfold referenceAt in Href. rewrite Hstack in Href. simpl in Href.
  assert (Frame.referenceMap frame ≫= (λ m, m !! AST.id node) = Some reference) as ->.
  { destruct (Frame.referenceMap frame); done. }
  rewrite bind_eq, getVariable_eq. simpl.
  set (st1 := match Reference.resolved reference with Some _ => st | None => _ end).
  rewrite bind_eq. unfold lift at 1.
  destruct (getReferenceName _ reference) as [referenceName|]; [|done].
  rewrite bind_eq. unfold lift at 1.
  destruct (getWriteExpr env reference) as [writeExpr|]; [|done].
  rewrite bind_eq. unfold lift at 1.
  destruct (isFreshRead reference writeExpr) as [fresh|]; [|done].
  rewrite bind_eq.
  destruct fresh; simpl.
  - unfold modify at 1. rewrite bind_eq. unfold lift at 1.
    destruct (needsVerification _ _ _ _) as [[w|]|]; done.
  - unfold mret, Rule_ret. rewrite bind_eq. unfold lift at 1.
    destruct (needsVerification _ _ _ _) as [[w|]|]; done.
Qed.

(** What [getVariable] leaves alone. *)
Lemma getVariable_frame reference st :
  let st1 := (getVariable env reference st).2 in
  assignmentReferences st1 = assignmentReferences st
  ∧ segmentInfo st1 = segmentInfo st
  ∧ stack st1 = stack st
  ∧ reported st1 = reported st.
Proof. rewrite getVariable_eq. by destruct (Reference.resolved reference). Qed.

Lemma verify_eq currentSegments node reference st :
  verify env currentSegments node reference st
  = let st1 := (getVariable env reference st).2 in
    if SegmentInfo.isOutdated currentSegments (Var.id (variableFor env reference st))
                              (segmentInfo st1)
    then match parentOf node with
         | Normal parent =>
             (Normal tt,
              set_reported (λ sent, sent ++
                [{| Report.node := parent; Report.messageId := "nonAtomicUpdate";
                    Report.value := Env.getText env (AST.left parent) |}]) st1)
         | TypeError => (TypeError, st1)
         end
    else (Normal tt, st1).
Proof.
  unfold verify. rewrite bind_eq, getVariable_eq. simpl.
  rewrite bind_eq. unfold gets at 1. cbn beta iota.
  destruct (SegmentInfo.isOutdated _ _ _); [|done].
  rewrite bind_eq. unfold lift at 1. by destruct (parentOf node).
Qed.

Lemma verify_frame currentSegments node reference st :
  let st' := (verify env currentSegments node reference st).2 in
  assignmentReferences st' = assignmentReferences st
  ∧ segmentInfo st' = segmentInfo st
  ∧ stack st' = stack st
  ∧ ((∀ variable, SegmentInfo.isOutdated currentSegments variable (segmentInfo st) = false)
     → reported st' = reported st).
Proof.
  rewrite verify_eq.
  destruct (getVariable_frame reference st) as (Ha & Hs & Hk & Hr).
  simpl in *. rewrite Hs.
  destruct (SegmentInfo.isOutdated _ _ (segmentInfo st)) eqn:Hout.
  - destruct (parentOf node); simpl; (repeat split; try done);
      intros Hno; rewrite Hno in Hout; done.
  - done.
Qed.

Lemma forEach_verify_frame currentSegments node references st :
  let st' := (forEach (verify env currentSegments node) references st).2 in
  assignmentReferences st' = assignmentReferences st
  ∧ segmentInfo st' = segmentInfo st
  ∧ stack st' = stack st
  ∧ ((∀ variable, SegmentInfo.isOutdated currentSegments variable (segmentInfo st) = false)
     → reported st' = reported st).
Proof.
  revert st. induction references as [|reference references IH]; intros st; [done|].
  simpl. rewrite bind_eq.
  destruct (verify_frame currentSegments node reference st) as (Ha & Hs & Hk & Hr).
  destruct (verify env currentSegments node reference st) as [[[]|] st1]; simpl in *.
  - destruct (IH st1) as (Ha' & Hs' & Hk' & Hr').
    repeat split; try congruence.
    intros Hno. rewrite Hr', Hr; try done. by rewrite Hs.
  - done.
Qed.

Lemma expressionExit_eq currentSegments node st frame upper refMap :
  stack st = frame :: upper →
  Frame.referenceMap frame = Some refMap →
  let st1 := if isSuspension node
             then set_segmentInfo (SegmentInfo.makeOutdated
                    (currentSegments (Frame.codePath frame))) st
             else st in
  expressionExit env currentSegments node st
  = match assignmentReferences st !! AST.id node with
    | Some references =>
        forEach (verify env (currentSegments (Frame.codePath frame)) node) references
                (set_assignmentReferences (delete (AST.id node)) st1)
    | None => (Normal tt, st1)
    end.
Proof.
  intros Hstack Hmap. simpl. unfold expressionExit.
  rewrite bind_eq. unfold currentFrame at 1. rewrite Hstack, Hmap.
  rewrite bind_eq. unfold isSuspension.
  destruct (decide (AST.type node = "AwaitExpression" ∨ AST.type node = "YieldExpression"))
    as [Hs|Hs].
  - rewrite bool_decide_eq_true_2 by done. unfold modify at 1.
    rewrite bind_eq. unfold gets at 1. simpl.
    destruct (assignmentReferences st !! AST.id node); done.
  - rewrite bool_decide_eq_false_2 by done. unfold mret at 1, Rule_ret at 1.
    rewrite bind_eq. unfold gets at 1.
    destruct (assignmentReferences st !! AST.id node); done.
Qed.

Lemma expressionExit_skipped currentSegments node st :
  (head (stack st) ≫= Frame.referenceMap) = None →
  (expressionExit env currentSegments node st).2 = st.
Proof.
  unfold expressionExit. rewrite bind_eq. unfold currentFrame at 1.
  destruct (stack st) as [|frame upper]; [done|]. simpl.
  by intros ->.
Qed.

Lemma Identifier_skipped currentSegments node st :
  referenceAt st node = None → (Identifier env currentSegments node st).2 = st.
Proof.
  unfold referenceAt, Identifier. rewrite bind_eq. unfold currentFrame at 1.
  destruct (stack st) as [|frame upper]; [done|]. simpl.
  destruct (Frame.referenceMap frame) as [m|]; simpl; [by intros ->|done].
Qed.

Lemma referenceAt_frame st node reference :
  referenceAt st node = Some reference → ∃ frame upper, stack st = frame :: upper.
Proof. unfold referenceAt. destruct (stack st) as [|frame upper]; [done|]. eauto. Qed.

Lemma referenceMap_frame st refMap :
  head (stack st) ≫= Frame.referenceMap = Some refMap →
  ∃ frame upper, stack st = frame :: upper ∧ Frame.referenceMap frame = Some refMap.
Proof. destruct (stack st) as [|frame upper]; [done|]. simpl. eauto. Qed.

End RuleFacts.

(** ** Traversals *)

Section Traversal.
Context (env : Env.t).

Lemma run_cons event events st :
  run env (event :: events) st
  = match handle env event st with
    | (Normal _, st') => run env events st'
    | (TypeError, st') => (TypeError, st')
    end.
Proof. reflexivity. Qed.

Lemma run_app prefix rest st :
  run env (prefix ++ rest) st
  = match run env prefix st with
    | (Normal _, st') => run env rest st'
    | (TypeError, st') => (TypeError, st')
    end.
Proof.
  revert st. induction prefix as [|event prefix IH]; intros st; [done|].
  simpl app. rewrite !run_cons.
  destruct (handle env event st) as [[[]|] st']; [apply IH|done].
Qed.

Lemma always_app P prefix rest st st' :
  always env P (prefix ++ rest) st = true →
  run env prefix st = (Normal tt, st') →
  always env P prefix st = true ∧ always env P rest st' = true.
Proof.
  revert st. induction prefix as [|event prefix IH]; intros st Hall Hrun.
  - simpl in Hrun. injection Hrun as <-. done.
  - simpl in Hall. rewrite run_cons in Hrun.
    apply andb_true_iff in Hall as [HP Hall]. simpl. rewrite HP. simpl.
    destruct (handle env event st) as [[[]|] st1]; [|done].
    by apply IH.
Qed.

Lemma always_and P Q events st :
  always env (λ st event, P st event && Q st event) events st
  = always env P events st && always env Q events st.
Proof.
  revert st. induction events as [|event events IH]; intros st; [done|].
  simpl. destruct (handle env event st) as [[[]|] st1].
  - rewrite IH. destruct (P st event), (Q st event), (always env P events st1); done.
  - destruct (P st event), (Q st event); done.
Qed.

(** A property that every handler keeps where [P] holds is kept along the
    traversal. *)
Lemma always_invariant (Inv : State → Prop) P :
  (∀ st event, Inv st → P st event = true → Inv (handle env event st).2) →
  ∀ prefix st st',
    Inv st → always env P prefix st = true →
    run env prefix st = (Normal tt, st') → Inv st'.
Proof.
  intros Hstep prefix. induction prefix as [|event prefix IH]; intros st st' HI Hall Hrun.
  - simpl in Hrun. by injection Hrun as <-.
  - simpl in Hall. rewrite run_cons in Hrun.
    apply andb_true_iff in Hall as [HP Hall].
    specialize (Hstep st event HI HP).
    destruct (handle env event st) as [[[]|] st1]; [|done].
    by apply (IH st1).
Qed.

(** How a handler can change the segment store. *)
Lemma handle_segmentInfo event st :
  let st' := (handle env event st).2 in
  segmentInfo st' = segmentInfo st
  ∨ (∃ segment, event = CodePathSegmentStart segment
       ∧ segmentInfo st' = SegmentInfo.initialize segment (segmentInfo st))
  ∨ (∃ currentSegments node variable, event = EnterIdentifier currentSegments node
       ∧ segmentInfo st'
         = SegmentInfo.markAsRead (activeSegments st event) variable (segmentInfo st))
  ∨ (∃ currentSegments node, event = ExitExpression currentSegments node
       ∧ isSuspension node = true
       ∧ segmentInfo st'
         = SegmentInfo.makeOutdated (activeSegments st event) (segmentInfo st)).
Proof.
  destruct event as [codePath scope| |segment|currentSegments node|currentSegments node];
    simpl.
  - by left.
  - left. unfold onCodePathEnd. by destruct (stack st).
  - right. left. by exists segment.
  - destruct (referenceAt st node) as [reference|] eqn:Href;
      [|left; by rewrite Identifier_skipped].
    destruct (referenceAt_frame st node reference Href) as (frame & upper & Hstack).
    rewrite (Identifier_found env currentSegments node st frame upper reference Hstack Href).
    destruct (getVariable_frame env reference st) as (_ & Hs & _ & _).
    rewrite Hstack. simpl in *.
    destruct (getReferenceName _ reference); [|by left].
    destruct (getWriteExpr env reference) as [writeExpr|]; [|by left].
    destruct (isFreshRead reference writeExpr) as [[]|]; [| |by left].
    + right. right. left. eexists _, _, _. split; [done|].
      destruct (needsVerification _ _ _ _) as [[w|]|]; simpl; by rewrite Hs.
    + left. destruct (needsVerification _ _ _ _) as [[w|]|]; simpl; by rewrite Hs.
  - destruct (head (stack st) ≫= Frame.referenceMap) as [refMap|] eqn:Hmap';
      [|left; by rewrite expressionExit_skipped].
    destruct (referenceMap_frame st refMap Hmap') as (frame & upper & Hstack & Hmap).
    rewrite (expressionExit_eq env currentSegments node st frame upper refMap Hstack Hmap).
    rewrite Hstack. simpl.
    destruct (isSuspension node) eqn:Hsusp.
    + right. right. right. exists currentSegments, node. split; [done|]. split; [done|].
      destruct (assignmentReferences st !! AST.id node) as [references|]; [|done].
      destruct (forEach_verify_frame env (currentSegments (Frame.codePath frame)) node
                  references
                  (set_assignmentReferences (delete (AST.id node))
                     (set_segmentInfo (SegmentInfo.makeOutdated
                        (currentSegments (Frame.codePath frame))) st)))
        as (_ & Hs & _). by rewrite Hs.
    + left.
      destruct (assignmentReferences st !! AST.id node) as [references|]; [|done].
      destruct (forEach_verify_frame env (currentSegments (Frame.codePath frame)) node
                  references (set_assignmentReferences (delete (AST.id node)) st))
        as (_ & Hs & _). by rewrite Hs.
Qed.

End Traversal.

(** ** Functions that never suspend *)

Section NoSuspension.
Context (env : Env.t).

Lemma Identifier_reported currentSegments node st :
  reported (Identifier env currentSegments node st).2 = reported st.
Proof.
  destruct (referenceAt st node) as [reference|] eqn:Href;
    [|by rewrite Identifier_skipped].
  destruct (referenceAt_frame st node reference Href) as (frame & upper & Hstack).
  rewrite (Identifier_found env currentSegments node st frame upper reference Hstack Href).
  destruct (getVariable_frame env reference st) as (_ & _ & _ & Hr). simpl in *.
  destruct (getReferenceName _ reference); [|done].
  destruct (getWriteExpr env reference) as [writeExpr|]; [|done].
  destruct (isFreshRead reference writeExpr) as [[]|]; [| |done];
    destruct (needsVerification _ _ _ _) as [[w|]|]; done.
Qed.

(** A handler reports nothing unless it is the exit of an expression on
    whose current segments something is outdated, after the suspension that
    the expression may be. *)
Lemma handle_reported event st :
  (∀ currentSegments node, event = ExitExpression currentSegments node →
     isSuspension node = false
     ∧ ∀ variable, SegmentInfo.isOutdated (activeSegments st event) variable
                                           (segmentInfo st) = false) →
  reported (handle env event st).2 = reported st.
Proof.
  intros Hexit.
  destruct event as [codePath scope| |segment|currentSegments node|currentSegments node];
    simpl.
  - done.
  - unfold onCodePathEnd. by destruct (stack st).
  - done.
  - apply Identifier_reported.
  - destruct (Hexit currentSegments node eq_refl) as [Hsusp Hno]. simpl in Hno.
    destruct (head (stack st) ≫= Frame.referenceMap) as [refMap|] eqn:Hmap';
      [|by rewrite expressionExit_skipped].
    destruct (referenceMap_frame st refMap Hmap') as (frame & upper & Hstack & Hmap).
    rewrite (expressionExit_eq env currentSegments node st frame upper refMap Hstack Hmap).
    rewrite Hstack in Hno. simpl. rewrite Hsusp.
    destruct (assignmentReferences st !! AST.id node) as [references|]; [|done].
    destruct (forEach_verify_frame env (currentSegments (Frame.codePath frame)) node
                references (set_assignmentReferences (delete (AST.id node)) st))
      as (_ & _ & _ & Hr).
    by rewrite Hr.
Qed.

Lemma join_outdated_empty (infos : list SegmentInfo.Info) :
  Forall (λ info, SegmentInfo.outdatedReadVariables info = ∅) infos →
  SegmentInfo.outdatedReadVariables (SegmentInfo.join infos) = ∅.
Proof.
  intros Hall. simpl. apply empty_union_list_L, Forall_fmap.
  eapply Forall_impl; [exact Hall|]. by intros info Hi.
Qed.

Lemma outdatedFree_step owner codePath st event :
  outdatedFree owner codePath st →
  ownedAt owner st event && noSuspensionAt codePath st event = true →
  outdatedFree owner codePath (handle env event st).2.
Proof.
  intros Hfree HP. apply andb_true_iff in HP as [Hown Hquiet].
  destruct (handle_segmentInfo env event st)
    as [Heq|[(segment & -> & Heq)
       |[(currentSegments & node & variable & -> & Heq)
        |(currentSegments & node & -> & Hsusp & Heq)]]];
    intros s info Hs Hinfo; rewrite Heq in Hinfo.
  - by apply (Hfree s).
  - destruct (decide (s = PathSegment.id segment)) as [->|Hne].
    + rewrite initialize_lookup in Hinfo. injection Hinfo as <-.
      apply join_outdated_empty, Forall_forall. intros i Hi.
      apply list_elem_of_omap in Hi as (p & Hp & Hpi).
      apply (Hfree p i); [|done].
      simpl in Hown. rewrite forallb_forall in Hown.
      assert (Hp' : In p (PathSegment.prevSegments segment)) by by apply list_elem_of_In.
      apply Hown, bool_decide_eq_true in Hp'. congruence.
    + rewrite initialize_lookup_ne in Hinfo by done. by apply (Hfree s).
  - rewrite markAsRead_lookup in Hinfo. case_decide; [|by apply (Hfree s)].
    destruct (segmentInfo st !! s) as [i|] eqn:Hi; [|done].
    injection Hinfo as <-. simpl. by apply (Hfree s i).
  - rewrite makeOutdated_lookup in Hinfo. case_decide as Hin; [|by apply (Hfree s)].
    exfalso. simpl in Hquiet, Hown. rewrite Hsusp, andb_true_r in Hquiet.
    apply negb_true_iff, bool_decide_eq_false in Hquiet.
    destruct (currentCodePath st) as [top|] eqn:Htop.
    + rewrite forallb_forall in Hown.
      assert (Hin' : In s (activeSegments st (ExitExpression currentSegments node)))
        by by apply list_elem_of_In.
      apply Hown, bool_decide_eq_true in Hin'. apply Hquiet. congruence.
    + unfold currentCodePath in Htop. simpl in Hin.
      destruct (stack st); [by apply elem_of_nil in Hin|done].
Qed.

End NoSuspension.

(** X23.  What holds of a function in which no [await] and no [yield] is
    left while its code path is the current one: as long as its code path
    is the current one, the outdated set of each of its segments is empty
    before and after every handler, [isOutdated] is false for every variable
    on the current segments, and the handler reports nothing.  The segments
    of a code path are its own ([ownedAt]).  Nothing is said of a handler
    that runs while the code path of a nested function is the current
    one. *)
Theorem no_report_while_own_path_is_current (env : Env.t) (owner : SegmentId → CodePathId)
    (codePath : CodePathId) (events : list Event) :
  always env (ownedAt owner) events initialState = true →
  always env (noSuspensionAt codePath) events initialState = true →
  ∀ prefix event rest st,
    events = prefix ++ event :: rest →
    run env prefix initialState = (Normal tt, st) →
    currentCodePath st = Some codePath →
    outdatedFree owner codePath st
    ∧ outdatedFree owner codePath (handle env event st).2
    ∧ (∀ variable, SegmentInfo.isOutdated (activeSegments st event) variable
                                          (segmentInfo st) = false)
    ∧ reported (handle env event st).2 = reported st.
Proof.
  intros Hown Hquiet prefix event rest st -> Hrun Htop.
  assert (Hboth : always env (λ st event, ownedAt owner st event
                                          && noSuspensionAt codePath st event)
                         (prefix ++ event :: rest) initialState = true).
  { rewrite always_and, Hown, Hquiet. done. }
  destruct (always_app env _ _ _ _ _ Hboth Hrun) as [Hprefix Hrest].
  assert (Hfree : outdatedFree owner codePath st).
  { apply (always_invariant env (outdatedFree owner codePath) _
             (outdatedFree_step env owner codePath) prefix initialState st);
      [|done|done].
    intros s info _ Hs. change (segmentInfo initialState) with (∅ : SegmentInfo.t) in Hs.
    by rewrite lookup_empty in Hs. }
  simpl in Hrest. apply andb_true_iff in Hrest as [HP _].
  assert (Hno : ∀ variable, SegmentInfo.isOutdated (activeSegments st event) variable
                              (segmentInfo st) = false).
  { intros variable. apply not_true_is_false. intros Hout.
    apply isOutdated_true in Hout as (s & info & Hin & Hs & Hv).
    apply andb_true_iff in HP as [Hown' _].
    assert (owner s = codePath) as Hs'.
    { destruct event; simpl in Hin; try (by apply elem_of_nil in Hin).
      all: simpl in Hown'; rewrite Htop, forallb_forall in Hown'.
      all: apply list_elem_of_In, Hown', bool_decide_eq_true in Hin; done. }
    rewrite (Hfree s info Hs' Hs) in Hv. by apply not_elem_of_empty in Hv. }
  split; [done|]. split; [by apply outdatedFree_step|]. split; [done|].
  apply handle_reported. intros currentSegments node ->. split; [|done].
  apply andb_true_iff in HP as [_ Hq]. simpl in Hq.
  rewrite Htop, bool_decide_eq_true_2 in Hq by done.
  by apply negb_true_iff in Hq.
Qed.

Lemma no_report_while_own_path_is_current_witness :
  let env := Examples.env "+=" "UnaryExpression" Examples.globalScope (Some "b") in
  let events := Examples.traversal "+=" "UnaryExpression" (Some 0) in
  let event := ExitExpression Examples.currentSegments (Examples.assignment "+=") in
  let st := (run env (take 10 events) initialState).2 in
  outdatedFree (λ _, 1) 1 st
  ∧ outdatedFree (λ _, 1) 1 (handle env event st).2
  ∧ (∀ variable, SegmentInfo.isOutdated (activeSegments st event) variable
                                        (segmentInfo st) = false)
  ∧ reported (handle env event st).2 = reported st.
Proof.
  intros env events event st.
  apply (no_report_while_own_path_is_current env (λ _, 1) 1 events eq_refl eq_refl
           (take 10 events) event [CodePathEnd] st).
  - reflexivity.
  - vm_compute. reflexivity.
  - reflexivity.
Defined.

(** C1.  The claim fails for
    [let x; async function F() { x = async function inner() { x; await g(); }; }].
    No [await] and no [yield] is left while the code path of [F] is the
    current one, and [x] is never outdated on the segment of [F].  But the
    write expression of the assignment in [F] is the function expression,
    and it is left while the code path of [inner] is still the current one:
    the pending reference of [F] is verified on the segment of [inner],
    where [x] was read before the [await], and the assignment of [F] is
    reported. *)
Theorem function_expression_verified_on_inner_path :
  let env := Nested.env in
  let st := (run env Nested.upToFunctionExit initialState).2 in
  let st' := (handle env (ExitExpression Nested.currentSegments Nested.inner) st).2 in
  always env (ownedAt Nested.owner) Nested.traversal initialState = true
  ∧ always env (noSuspensionAt Nested.codePathF) Nested.traversal initialState = true
  ∧ currentCodePath st = Some Nested.codePathInner
  ∧ SegmentInfo.isOutdated (Nested.currentSegments Nested.codePathF) (Resolved 0)
                           (segmentInfo st) = false
  ∧ SegmentInfo.isOutdated (Nested.currentSegments Nested.codePathInner) (Resolved 0)
                           (segmentInfo st) = true
  ∧ reported st = []
  ∧ reported st' = [reportFor env Nested.assignment]
  ∧ ∃ final, run env Nested.traversal initialState = (Normal tt, final)
             ∧ reported final = [reportFor env Nested.assignment].
Proof.
  intros env st st'.
  split; [vm_compute; reflexivity|].
  split; [vm_compute; reflexivity|].
  split; [vm_compute; reflexivity|].
  split; [vm_compute; reflexivity|].
  split; [vm_compute; reflexivity|].
  split; [vm_compute; reflexivity|].
  split; [vm_compute; reflexivity|].
  exists (run env Nested.traversal initialState).2.
  split; vm_compute; reflexivity.
Qed.

Section Pending.
Context (env : Env.t).

(** How a handler can change the list of references under [w]. *)
Lemma handle_assignmentReferences event st w :
  let st' := (handle env event st).2 in
  assignmentReferences st' !! w = assignmentReferences st !! w
  ∨ assignmentReferences st' !! w = None
  ∨ (∃ currentSegments node reference referenceName writeExpr,
       event = EnterIdentifier currentSegments node
       ∧ referenceAt st node = Some reference
       ∧ getReferenceName (Env.getPropertyName env) reference = Normal referenceName
       ∧ getWriteExpr env reference = Normal (Some writeExpr)
       ∧ AST.id writeExpr = w
       ∧ isLocalVariableWithoutEscape (Env.getPropertyName env)
           (variableFor env reference st) referenceName = Normal false
       ∧ assignmentReferences st' !! w
         = Some (default [] (assignmentReferences st !! w) ++ [reference])).
Proof.
  destruct event as [codePath scope| |segment|currentSegments node|currentSegments node];
    simpl.
  - by left.
  - left. unfold onCodePathEnd. by destruct (stack st).
  - by left.
  - destruct (referenceAt st node) as [reference|] eqn:Href;
      [|left; by rewrite Identifier_skipped].
    destruct (referenceAt_frame st node reference Href) as (frame & upper & Hstack).
    rewrite (Identifier_found env currentSegments node st frame upper reference Hstack Href).
    destruct (getVariable_frame env reference st) as (Ha & _ & _ & _).
    cbv zeta in *. set (st1 := (getVariable env reference st).2) in *.
    destruct (getReferenceName _ reference) as [referenceName|] eqn:Hname;
      [|left; simpl; by rewrite Ha].
    destruct (getWriteExpr env reference) as [writeExpr|] eqn:Hwrite;
      [|left; simpl; by rewrite Ha].
    destruct (isFreshRead reference writeExpr) as [fresh|]; [|left; simpl; by rewrite Ha].
    match goal with
    | |- context [if fresh then ?s else st1] => set (st2 := if fresh then s else st1)
    end.
    assert (Hfresh : assignmentReferences st2 = assignmentReferences st).
    { subst st2. destruct fresh; simpl; by rewrite Ha. }
    destruct (needsVerification _ _ _ _) as [[target|]|] eqn:Hneeds;
      [|left; simpl; by rewrite Hfresh|left; simpl; by rewrite Hfresh].
    unfold needsVerification in Hneeds.
    destruct writeExpr as [writeExpr|]; [|done].
    destruct (parentOf writeExpr) as [parent|]; [|done]. simpl in Hneeds.
    destruct (bool_decide (AST.right parent = Some (AST.id writeExpr))); [|done].
    destruct (isLocalVariableWithoutEscape _ _ _) as [[]|] eqn:Hlocal; try done.
    simpl in Hneeds. injection Hneeds as <-.
    destruct (decide (AST.id writeExpr = w)) as [Hw|Hw].
    * right. right. exists currentSegments, node, reference, referenceName, writeExpr.
      repeat (split; [done|]). simpl. unfold pushAssignmentReference.
      rewrite Hfresh, Hw. apply lookup_insert_eq.
    * left. simpl. unfold pushAssignmentReference.
      rewrite lookup_insert_ne by done. by rewrite Hfresh.
  - destruct (head (stack st) ≫= Frame.referenceMap) as [refMap|] eqn:Hmap';
      [|left; by rewrite expressionExit_skipped].
    destruct (referenceMap_frame st refMap Hmap') as (frame & upper & Hstack & Hmap).
    rewrite (expressionExit_eq env currentSegments node st frame upper refMap Hstack Hmap).
    simpl.
    destruct (assignmentReferences st !! AST.id node) as [references|] eqn:Hrefs.
    + match goal with
      | |- context [forEach ?body references ?s] =>
          destruct (forEach_verify_frame env (currentSegments (Frame.codePath frame))
                      node references s) as (Ha & _)
      end.
      rewrite Ha.
      assert (Hdel : ∀ s : State,
        assignmentReferences s = assignmentReferences st →
        delete (AST.id node) (assignmentReferences s) !! w = assignmentReferences st !! w
        ∨ delete (AST.id node) (assignmentReferences s) !! w = None).
      { intros s ->. destruct (decide (AST.id node = w)) as [<-|Hne].
        - right. apply lookup_delete_eq.
        - left. by apply lookup_delete_ne. }
      destruct (isSuspension node); simpl; (destruct (Hdel st eq_refl); [by left|right; by left]).
    + left. by destruct (isSuspension node).
Qed.

End Pending.

Lemma noPending_step env w st event :
  assignmentReferences st !! w = None →
  localTargetAt env w st event = true →
  assignmentReferences (handle env event st).2 !! w = None.
Proof.
  intros Hnone Hlocal.
  destruct (handle_assignmentReferences env event st w)
    as [Heq|[Heq|(currentSegments & node & reference & referenceName & writeExpr
                  & -> & Href & Hname & Hwrite & Hw & Hesc & _)]].
  - by rewrite Heq.
  - done.
  - exfalso. simpl in Hlocal. rewrite Href, Hwrite in Hlocal.
    rewrite decide_True in Hlocal by done. by rewrite Hname, Hesc in Hlocal.
Qed.

(** C2.  When every identifier that feeds the write expression [w] belongs
    to a variable that is local without escape under its reference name, no
    reference is ever put on the list kept for [w], and leaving [w] reports
    nothing, whatever was suspended in between. *)
Theorem local_target_never_reported (env : Env.t) (w : NodeId) (events : list Event) :
  always env (localTargetAt env w) events initialState = true →
  ∀ prefix event rest st,
    events = prefix ++ event :: rest →
    run env prefix initialState = (Normal tt, st) →
    assignmentReferences st !! w = None
    ∧ assignmentReferences (handle env event st).2 !! w = None
    ∧ (∀ currentSegments node,
         event = ExitExpression currentSegments node → AST.id node = w →
         reported (handle env event st).2 = reported st).
Proof.
  intros Hlocal prefix event rest st -> Hrun.
  destruct (always_app env _ _ _ _ _ Hlocal Hrun) as [Hprefix Hrest].
  assert (Hnone : assignmentReferences st !! w = None).
  { apply (always_invariant env (λ st, assignmentReferences st !! w = None) _
             (noPending_step env w) prefix initialState st); [|done|done].
    apply lookup_empty. }
  simpl in Hrest. apply andb_true_iff in Hrest as [HP _].
  split; [done|]. split; [by apply noPending_step|].
  intros currentSegments node -> Hw. simpl.
  destruct (head (stack st) ≫= Frame.referenceMap) as [refMap|] eqn:Hmap';
    [|by rewrite expressionExit_skipped].
  destruct (referenceMap_frame st refMap Hmap') as (frame & upper & Hstack & Hmap).
  rewrite (expressionExit_eq env currentSegments node st frame upper refMap Hstack Hmap).
  simpl. rewrite Hw, Hnone. by destruct (isSuspension node).
Qed.

Lemma local_target_never_reported_witness :
  let env := Examples.env "+=" "AwaitExpression" Examples.scopeF (Some "b") in
  let events := Examples.traversal "+=" "AwaitExpression" (Some 0) in
  let event := ExitExpression Examples.currentSegments
                 (Examples.right "+=" "AwaitExpression") in
  let st := (run env (take 9 events) initialState).2 in
  assignmentReferences st !! 8 = None
  ∧ assignmentReferences (handle env event st).2 !! 8 = None
  ∧ SegmentInfo.isOutdated [1] (Resolved 0) (segmentInfo (handle env event st).2) = true
  ∧ reported (handle env event st).2 = reported st.
Proof.
  intros env events event st.
  destruct (local_target_never_reported env 8 events eq_refl (take 9 events) event
              (drop 10 events) st) as (H1 & H2 & H3).
  - reflexivity.
  - vm_compute. reflexivity.
  - split; [exact H1|]. split; [exact H2|]. split; [reflexivity|].
    exact (H3 Examples.currentSegments (Examples.right "+=" "AwaitExpression")
              eq_refl eq_refl).
Defined.

(** C8.  When a segment starts, its entry becomes the union of the entries
    of its previous segments, set by set, and both sets are empty when none
    of them has an entry.  Any other handler changes the entry of a segment
    only if the segment is one of the current segments of the code path
    that is being traversed. *)
Theorem segment_state_invariant (env : Env.t) (event : Event) (st : State) :
  let st' := (handle env event st).2 in
  (∀ segment,
     event = CodePathSegmentStart segment →
     segmentInfo st' !! PathSegment.id segment
     = Some (SegmentInfo.join
               (omap (λ p, segmentInfo st !! p) (PathSegment.prevSegments segment)))
     ∧ (Forall (λ p, segmentInfo st !! p = None) (PathSegment.prevSegments segment) →
        segmentInfo st' !! PathSegment.id segment
        = Some {| SegmentInfo.outdatedReadVariables := ∅;
                  SegmentInfo.freshReadVariables := ∅ |}))
  ∧ (∀ s,
       segmentInfo st' !! s = segmentInfo st !! s
       ∨ (∃ segment, event = CodePathSegmentStart segment ∧ PathSegment.id segment = s)
       ∨ s ∈ activeSegments st event).
Proof.
  split.
  - intros segment ->. simpl. rewrite initialize_lookup. split; [done|].
    intros Hnone. do 2 f_equal.
    induction Hnone as [|p prevs Hp _ IH]; [done|]. simpl. by rewrite Hp.
  - intros s.
    destruct (handle_segmentInfo env event st)
      as [Heq|[(segment & -> & Heq)
         |[(currentSegments & node & variable & -> & Heq)
          |(currentSegments & node & -> & Hsusp & Heq)]]]; rewrite Heq.
    + by left.
    + destruct (decide (s = PathSegment.id segment)) as [->|Hne].
      * right. left. by exists segment.
      * left. by apply initialize_lookup_ne.
    + rewrite markAsRead_lookup. case_decide; [by right; right|by left].
    + rewrite makeOutdated_lookup. case_decide; [by right; right|by left].
Qed.

Lemma segment_state_invariant_witness :
  let env := Examples.env "=" "UnaryExpression" Examples.globalScope (Some "b") in
  let st := set_segmentInfo (λ _, Examples.store) initialState in
  segmentInfo (handle env (CodePathSegmentStart Examples.joinSegment) st).2 !! 4
  = Some (SegmentInfo.join [Examples.info1; Examples.info3])
  ∧ segmentInfo (handle env (CodePathSegmentStart (PathSegment.mk 5 [2])) st).2 !! 5
    = Some {| SegmentInfo.outdatedReadVariables := ∅;
              SegmentInfo.freshReadVariables := ∅ |}.
Proof.
  intros env st. split.
  - destruct (segment_state_invariant env (CodePathSegmentStart Examples.joinSegment) st)
      as [H _].
    destruct (H Examples.joinSegment eq_refl) as [Hjoin _]. exact Hjoin.
  - destruct (segment_state_invariant env (CodePathSegmentStart (PathSegment.mk 5 [2])) st)
      as [H _].
    destruct (H (PathSegment.mk 5 [2]) eq_refl) as [_ Hempty]. apply Hempty.
    apply Forall_cons. split; [reflexivity|apply Forall_nil_2].
Defined.

(** ** Names and write expressions *)

(** Induction along the parent links of a node. *)
Lemma Node_parent_ind (P : AST.Node → Prop) :
  (∀ node, (∀ parent, AST.parent node = Some parent → P parent) → P node) →
  ∀ node, P node.
Proof.
  intros H. fix IH 1. intros node. apply H.
  destruct node as [id type name operator object left right async generator [parent|]];
    simpl; intros p Hp; [|discriminate Hp].
  injection Hp as <-. apply IH.
Qed.

Section WriteExpr.
Context (env : Env.t).

Lemma getWriteExpr_loop_unfold node :
  getWriteExpr_loop env node
  = match AST.parent node with
    | None => TypeError
    | Some parent =>
        if decide (AST.type parent = "AssignmentExpression"
                   ∧ AST.left parent = Some (AST.id node))
        then Normal (Env.nodeAt env <$> AST.right parent)
        else if decide (AST.type parent = "MemberExpression"
                        ∧ AST.object parent = Some (AST.id node))
        then getWriteExpr_loop env parent
        else Normal None
    end.
Proof. by destruct node. Qed.

Lemma chainTop_unfold node :
  chainTop node
  = match AST.parent node with
    | Some parent =>
        if decide (AST.type parent = "MemberExpression"
                   ∧ AST.object parent = Some (AST.id node))
        then chainTop parent
        else node
    | None => node
    end.
Proof. by destruct node. Qed.

Lemma getWriteExpr_loop_chainTop node :
  getWriteExpr_loop env node
  = let top := chainTop node in
    match AST.parent top with
    | Some assignment =>
        if decide (AST.type assignment = "AssignmentExpression"
                   ∧ AST.left assignment = Some (AST.id top))
        then Normal (Env.nodeAt env <$> AST.right assignment)
        else Normal None
    | None => TypeError
    end.
Proof.
  induction node as [node IH] using Node_parent_ind. cbv zeta.
  rewrite getWriteExpr_loop_unfold, (chainTop_unfold node).
  destruct (AST.parent node) as [parent|] eqn:Hparent; [|by rewrite Hparent].
  destruct (decide (AST.type parent = "MemberExpression"
                    ∧ AST.object parent = Some (AST.id node))) as [[Hm Ho]|Hm].
  - rewrite decide_False by (intros [Ha _]; congruence).
    by apply IH.
  - rewrite Hparent. by case_decide.
Qed.

End WriteExpr.

(** C6, amended.  The write expression of a reference is its own
    [writeExpr] when it has one.  Otherwise the identifier, or the member
    access that it heads as the object, is looked at: when that is the left
    side of an assignment expression, with whichever operator, it is the
    right side of the assignment; in every other case there is none. *)
Theorem getWriteExpr_resolution (env : Env.t) (reference : Reference.t) :
  getWriteExpr env reference
  = match Reference.writeExpr reference with
    | Some writeExpr => Normal (Some writeExpr)
    | None =>
        let top := chainTop (Reference.identifier reference) in
        match AST.parent top with
        | Some assignment =>
            if decide (AST.type assignment = "AssignmentExpression"
                       ∧ AST.left assignment = Some (AST.id top))
            then Normal (Env.nodeAt env <$> AST.right assignment)
            else Normal None
        | None => TypeError
        end
    end.
Proof.
  unfold getWriteExpr. destruct (Reference.writeExpr reference); [done|].
  apply getWriteExpr_loop_chainTop.
Qed.

(** C6 as stated fails for [a.b += -c]: the member access headed by [a] is
    the left side of a compound assignment, and [getWriteExpr] gives its right
    side where the stated rule gives none. *)
Lemma compound_assignment_through_member_chain :
  let env := Examples.env "+=" "UnaryExpression" Examples.globalScope (Some "b") in
  let reference := Examples.refA "+=" (Some 0) in
  getWriteExpr env reference = Normal (Some (Examples.right "+=" "UnaryExpression"))
  ∧ statedWriteExpr env reference = Normal None
  ∧ getWriteExpr env reference ≠ statedWriteExpr env reference.
Proof. split; [reflexivity|]. split; [reflexivity|]. discriminate. Qed.

Section ReferenceName.
Context (getPropertyName : AST.Node → Scope.t → option string).

Lemma getReferenceName_loop_unfold from node names :
  getReferenceName_loop getPropertyName from node names
  = match AST.parent node with
    | None => TypeError
    | Some parent =>
        if decide (AST.type parent = "MemberExpression"
                   ∧ AST.object parent = Some (AST.id node))
        then getReferenceName_loop getPropertyName from parent
               (names ++ [orStar (getPropertyName parent from)])
        else Normal names
    end.
Proof. by destruct node. Qed.

Lemma objectChain_unfold node :
  objectChain node
  = match AST.parent node with
    | Some parent =>
        if decide (AST.type parent = "MemberExpression"
                   ∧ AST.object parent = Some (AST.id node))
        then parent :: objectChain parent
        else []
    | None => []
    end.
Proof. by destruct node. Qed.

(** The loop adds one label for each member expression of the chain, and
    throws when the chain ends in a node without a parent. *)
Lemma getReferenceName_loop_chain from node names :
  getReferenceName_loop getPropertyName from node names
  = match AST.parent (chainTop node) with
    | Some _ =>
        Normal (names ++ map (λ member, orStar (getPropertyName member from))
                             (objectChain node))
    | None => TypeError
    end.
Proof.
  revert names. induction node as [node IH] using Node_parent_ind. intros names.
  rewrite getReferenceName_loop_unfold, (chainTop_unfold node), (objectChain_unfold node).
  destruct (AST.parent node) as [parent|] eqn:Hparent; [|by rewrite Hparent].
  case_decide.
  - rewrite (IH parent) by done.
    destruct (AST.parent (chainTop parent)); [|done].
    simpl. by rewrite <- app_assoc.
  - rewrite Hparent. simpl. by rewrite app_nil_r.
Qed.

Lemma orStar_stated x : x ≠ Some EmptyString → orStar x = statedLabel x.
Proof.
  intros Hx. destruct x as [s|]; [|done]. simpl.
  case_decide; [congruence|done].
Qed.

(** Where no property name is empty, the name is the stated one. *)
Lemma getReferenceName_stated reference :
  Forall (λ member, getPropertyName member (Reference.from reference) ≠ Some EmptyString)
         (objectChain (Reference.identifier reference)) →
  is_Some (AST.parent (chainTop (Reference.identifier reference))) →
  getReferenceName getPropertyName reference
  = Normal (statedReferenceName getPropertyName reference).
Proof.
  intros Hne [top Htop]. unfold getReferenceName, statedReferenceName.
  rewrite getReferenceName_loop_chain, Htop.
  assert (map (λ member, orStar (getPropertyName member (Reference.from reference)))
              (objectChain (Reference.identifier reference))
          = map (λ member, statedLabel (getPropertyName member (Reference.from reference)))
                (objectChain (Reference.identifier reference))) as ->; [|done].
  induction Hne as [|member chain Hm _ IH]; [done|].
  simpl. by rewrite orStar_stated, IH.
Qed.

End ReferenceName.

(** C7.  A member access [a[k]] whose key [k] is the empty string:
    [getPropertyName] finds the empty name for it, which is a name known
    statically; the name of the reference to [a] is nevertheless ["a.*"],
    where the stated name keeps the property name and is ["a."].  The
    default of [orStar] takes the empty name for a missing one. *)
Theorem empty_property_name_becomes_wildcard :
  let getPropertyName :=
    Env.getPropertyName
      (Examples.env "=" "UnaryExpression" Examples.globalScope (Some EmptyString)) in
  let reference := Examples.refA "=" (Some 0) in
  getPropertyName (Examples.member "=") (Reference.from reference) = Some EmptyString
  ∧ getReferenceName getPropertyName reference = Normal "a.*"
  ∧ statedReferenceName getPropertyName reference = "a.".
Proof. split; [reflexivity|]. split; reflexivity. Qed.

(** C5, amended.  For a reference of the reference map whose name and
    write expression are found, [markAsRead] is applied to the current
    segments exactly when the reference is a read and its write expression,
    if any, does not belong to a plain [=] assignment. *)
Theorem read_marking (env : Env.t) (currentSegments : CodePathId → list SegmentId)
    (node : AST.Node) (st : State) (frame : Frame.t) (upper : list Frame.t)
    (reference : Reference.t) (referenceName : string) (writeExpr : option AST.Node) :
  stack st = frame :: upper →
  referenceAt st node = Some reference →
  getReferenceName (Env.getPropertyName env) reference = Normal referenceName →
  getWriteExpr env reference = Normal writeExpr →
  (∀ w, writeExpr = Some w → is_Some (AST.parent w)) →
  segmentInfo (Identifier env currentSegments node st).2
  = if Reference.isRead reference && negb (feedsPlainAssignment writeExpr)
    then SegmentInfo.markAsRead (currentSegments (Frame.codePath frame))
           (Var.id (variableFor env reference st)) (segmentInfo st)
    else segmentInfo st.
Proof.
  intros Hstack Href Hname Hwrite Hparent.
  rewrite (Identifier_found env currentSegments node st frame upper reference Hstack Href).
  destruct (getVariable_frame env reference st) as (_ & Hs & _ & _).
  cbv zeta in *. set (st1 := (getVariable env reference st).2) in *.
  rewrite Hname, Hwrite.
  assert (Hfresh : isFreshRead reference writeExpr
                   = Normal (Reference.isRead reference
                             && negb (feedsPlainAssignment writeExpr))).
  { unfold isFreshRead, feedsPlainAssignment.
    destruct (Reference.isRead reference); [|done].
    destruct writeExpr as [w|]; [|done].
    destruct (Hparent w eq_refl) as [assignment Hw].
    unfold parentOf. by rewrite Hw. }
  rewrite Hfresh.
  destruct (Reference.isRead reference && negb (feedsPlainAssignment writeExpr));
    destruct (needsVerification _ _ _ _) as [[w|]|]; simpl; by rewrite Hs.
Qed.

Lemma read_marking_witness :
  let env := Examples.env "+=" "UnaryExpression" Examples.globalScope (Some "b") in
  let st := (run env (Examples.entering "+=" "UnaryExpression" (Some 0)) initialState).2 in
  segmentInfo (Identifier env Examples.currentSegments (Examples.a "+=") st).2
  = SegmentInfo.markAsRead [1] (Resolved 0) (segmentInfo st).
Proof.
  intros env st.
  apply (read_marking env Examples.currentSegments (Examples.a "+=") st
           (Frame.mk 1 (Some (createReferenceMap
                                (Examples.treeF "+=" "UnaryExpression" (Some 0)) ∅)))
           [] (Examples.refA "+=" (Some 0)) "a.b"
           (Some (Examples.right "+=" "UnaryExpression"))).
  - reflexivity.
  - reflexivity.
  - reflexivity.
  - reflexivity.
  - intros w Hw. injection Hw as <-. by eexists.
Defined.

(** C5 as stated fails for [a.b = -c]: the reference to [a] is a read, it
    is not the written identifier but the object at the head of [a.b], and
    the handler leaves the segment store as it is, where [markAsRead] would
    have changed it. *)
Lemma chain_head_read_not_marked :
  let env := Examples.env "=" "UnaryExpression" Examples.globalScope (Some "b") in
  let st := (run env (Examples.entering "=" "UnaryExpression" (Some 0)) initialState).2 in
  let reference := Examples.refA "=" (Some 0) in
  referenceAt st (Examples.a "=") = Some reference
  ∧ Reference.isRead reference = true
  ∧ Reference.writeExpr reference = None
  ∧ AST.parent (Examples.a "=") = Some (Examples.member "=")
  ∧ AST.object (Examples.member "=") = Some (AST.id (Examples.a "="))
  ∧ segmentInfo (Identifier env Examples.currentSegments (Examples.a "=") st).2
    = segmentInfo st
  ∧ SegmentInfo.markAsRead [1] (Resolved 0) (segmentInfo st) ≠ segmentInfo st.
Proof.
  intros env st reference. repeat (split; [reflexivity|]).
  intros Heq. apply (f_equal (λ m : SegmentInfo.t, m !! 1)) in Heq.
  rewrite markAsRead_lookup in Heq.
  assert (Hs : segmentInfo st !! 1
               = Some {| SegmentInfo.outdatedReadVariables := ∅;
                         SegmentInfo.freshReadVariables := ∅ |}) by reflexivity.
  rewrite Hs, decide_True in Heq by apply list_elem_of_here.
  apply (f_equal (from_option SegmentInfo.freshReadVariables ∅)) in Heq.
  simpl in Heq.
  assert (Hin : Resolved 0 ∈ (∅ ∪ {[Resolved 0]} : gset VarId)) by set_solver.
  rewrite Heq in Hin. by apply not_elem_of_empty in Hin.
Qed.

(** ** Escape, and the dummies of unresolved names *)

Section Filter.
Context {A : Type}.

(** Where the test never throws, [filterC] is a filter. *)
Lemma filterC_Normal (p : A → Completion bool) (q : A → bool) (xs : list A) :
  Forall (λ x, p x = Normal (q x)) xs →
  filterC p xs = Normal (List.filter q xs).
Proof.
  induction 1 as [|x xs Hx _ IH]; [done|].
  simpl. rewrite Hx. simpl. rewrite IH. simpl. by destruct (q x).
Qed.

End Filter.

Section Escape.
Context (getPropertyName : AST.Node → Scope.t → option string).

(** A reference of the same name from another variable scope makes the
    variable escape. *)
Lemma isLocalVariableWithoutEscape_false variable referenceName reference :
  Forall (λ r, getReferenceName getPropertyName r ≠ TypeError) (Var.references variable) →
  reference ∈ Var.references variable →
  getReferenceName getPropertyName reference = Normal referenceName →
  Scope.variableScope (Reference.from reference)
    ≠ Scope.variableScope (Var.scope variable) →
  isLocalVariableWithoutEscape getPropertyName variable referenceName = Normal false.
Proof.
  intros Hnames Hin Hname Hscope. unfold isLocalVariableWithoutEscape.
  set (q := λ r, match getReferenceName getPropertyName r with
                 | Normal n => bool_decide (n = referenceName)
                 | TypeError => false
                 end).
  rewrite (filterC_Normal _ q).
  - simpl. f_equal. apply not_true_is_false. intros Hall.
    rewrite forallb_forall in Hall.
    assert (Hf : In reference (List.filter q (Var.references variable))).
    { apply filter_In. split; [by apply list_elem_of_In|].
      unfold q. rewrite Hname. by apply bool_decide_eq_true_2. }
    specialize (Hall reference Hf). simpl in Hall.
    by rewrite bool_decide_eq_false_2 in Hall.
  - eapply Forall_impl; [exact Hnames|]. intros r Hr. unfold q. simpl in *.
    destruct (getReferenceName getPropertyName r); [done|by destruct Hr].
Qed.

(** What [isLocalVariableWithoutEscape] decides: every reference to the
    variable under the given name is made from the variable scope of the
    variable's own scope. *)
Lemma isLocalVariableWithoutEscape_true variable referenceName :
  Forall (λ r, getReferenceName getPropertyName r ≠ TypeError) (Var.references variable) →
  isLocalVariableWithoutEscape getPropertyName variable referenceName = Normal true
  ↔ ∀ reference, reference ∈ Var.references variable →
      getReferenceName getPropertyName reference = Normal referenceName →
      Scope.variableScope (Reference.from reference)
      = Scope.variableScope (Var.scope variable).
Proof.
  intros Hnames. unfold isLocalVariableWithoutEscape.
  set (q := λ r, match getReferenceName getPropertyName r with
                 | Normal n => bool_decide (n = referenceName)
                 | TypeError => false
                 end).
  rewrite (filterC_Normal _ q).
  2:{ eapply Forall_impl; [exact Hnames|]. intros r Hr. unfold q. simpl in *.
      destruct (getReferenceName getPropertyName r); [done|by destruct Hr]. }
  simpl. split.
  - intros [= Hall] reference Hin Hname. rewrite forallb_forall in Hall.
    assert (Hf : In reference (List.filter q (Var.references variable))).
    { apply filter_In. split; [by apply list_elem_of_In|].
      unfold q. rewrite Hname. by apply bool_decide_eq_true_2. }
    specialize (Hall reference Hf). simpl in Hall.
    by apply bool_decide_eq_true in Hall.
  - intros Hall. f_equal. apply forallb_forall. intros reference Hf.
    apply filter_In in Hf as [Hin Hq]. apply bool_decide_eq_true_2.
    apply Hall; [by apply list_elem_of_In|].
    unfold q in Hq. destruct (getReferenceName getPropertyName reference); [|done].
    by apply bool_decide_eq_true in Hq as ->.
Qed.

End Escape.

Section Dummies.
Context (env : Env.t).

Lemma run_invariant (Inv : State → Prop) :
  (∀ st event st', Inv st → handle env event st = (Normal tt, st') → Inv st') →
  ∀ prefix st st', Inv st → run env prefix st = (Normal tt, st') → Inv st'.
Proof.
  intros Hstep prefix. induction prefix as [|event prefix IH]; intros st st' HI Hrun.
  - simpl in Hrun. by injection Hrun as <-.
  - rewrite run_cons in Hrun.
    destruct (handle env event st) as [[[]|] st1] eqn:Hhandle; [|done].
    apply (IH st1); [|done]. by apply (Hstep st event).
Qed.

Lemma dummiesKept_ext st st' :
  dummyVariables st' = dummyVariables st →
  assignmentReferences st' = assignmentReferences st →
  dummiesKept env st → dummiesKept env st'.
Proof. unfold dummiesKept. by intros -> ->. Qed.

Lemma pushedDummy_kept st reference :
  dummiesKept env st → namable env reference →
  let name := AST.name (Reference.identifier reference) in
  let variable := pushedDummy env name (dummyVariables st !! name) reference in
  Var.id variable = Unresolved name
  ∧ Var.scope variable = Env.globalScope env
  ∧ Forall (namable env) (Var.references variable).
Proof.
  intros [Hd _] Hr name variable. subst variable. unfold pushedDummy.
  destruct (dummyVariables st !! name) as [found|] eqn:Hfound; simpl.
  - destruct (Hd name found Hfound) as (Hi & Hs & Hrefs).
    repeat split; try done. apply Forall_app. split; [done|]. by apply Forall_singleton.
  - repeat split. by apply Forall_singleton.
Qed.

Lemma dummiesKept_getVariable st reference :
  dummiesKept env st → namable env reference →
  dummiesKept env (getVariable env reference st).2.
Proof.
  intros Hkept Hr. rewrite getVariable_eq. simpl.
  destruct (Reference.resolved reference) eqn:Hres; [done|].
  split; simpl.
  - intros name variable Hlookup. unfold variableFor in Hlookup. rewrite Hres in Hlookup.
    destruct (decide (AST.name (Reference.identifier reference) = name)) as [<-|Hne].
    + rewrite lookup_insert_eq in Hlookup. injection Hlookup as <-.
      by apply pushedDummy_kept.
    + rewrite lookup_insert_ne in Hlookup by done. by apply Hkept.
  - apply Hkept.
Qed.

Lemma dummiesKept_verify currentSegments node st references :
  dummiesKept env st → Forall (namable env) references →
  dummiesKept env (forEach (verify env currentSegments node) references st).2.
Proof.
  revert st. induction references as [|reference references IH]; intros st Hkept Hrefs;
    [done|].
  apply Forall_cons in Hrefs as [Hr Hrefs].
  simpl. rewrite bind_eq.
  assert (Hstep : dummiesKept env (verify env currentSegments node reference st).2).
  { rewrite verify_eq. cbv zeta.
    pose proof (dummiesKept_getVariable st reference Hkept Hr) as Hk.
    destruct (SegmentInfo.isOutdated _ _ _); [|done].
    destruct (parentOf node); [|done].
    by apply (dummiesKept_ext (getVariable env reference st).2). }
  destruct (verify env currentSegments node reference st) as [[[]|] st1]; [|done].
  by apply IH.
Qed.

Lemma dummiesKept_step st event st' :
  dummiesKept env st → handle env event st = (Normal tt, st') → dummiesKept env st'.
Proof.
  intros Hkept Hhandle.
  destruct event as [codePath scope| |segment|currentSegments node|currentSegments node];
    simpl in Hhandle.
  - injection Hhandle as <-. by apply (dummiesKept_ext st).
  - unfold onCodePathEnd in Hhandle. destruct (stack st); [done|].
    injection Hhandle as <-. by apply (dummiesKept_ext st).
  - injection Hhandle as <-. by apply (dummiesKept_ext st).
  - destruct (referenceAt st node) as [reference|] eqn:Href.
    2:{ apply (f_equal snd) in Hhandle. rewrite Identifier_skipped in Hhandle by done.
        simpl in Hhandle. by subst st'. }
    destruct (referenceAt_frame st node reference Href) as (frame & upper & Hstack).
    rewrite (Identifier_found env currentSegments node st frame upper reference Hstack Href)
      in Hhandle.
    cbv zeta in Hhandle.
    destruct (getReferenceName _ reference) as [referenceName|] eqn:Hname; [|done].
    assert (Hr : namable env reference) by (unfold namable; by rewrite Hname).
    pose proof (dummiesKept_getVariable st reference Hkept Hr) as Hk.
    set (st1 := (getVariable env reference st).2) in *.
    destruct (getWriteExpr env reference) as [writeExpr|]; [|done].
    destruct (isFreshRead reference writeExpr) as [fresh|]; [|done].
    match type of Hhandle with
    | context [if fresh then ?s else st1] => set (st2 := if fresh then s else st1) in *
    end.
    assert (Hk2 : dummiesKept env st2).
    { subst st2. destruct fresh; [|done]. by apply (dummiesKept_ext st1). }
    destruct (needsVerification _ _ _ _) as [[w|]|]; [| |done].
    * injection Hhandle as <-. destruct Hk2 as [Hd Ha]. split; [done|].
      intros w' references. simpl. unfold pushAssignmentReference.
      destruct (decide (AST.id w = w')) as [<-|Hne].
      -- rewrite lookup_insert_eq. intros [= <-]. apply Forall_app. split.
         ++ destruct (assignmentReferences st2 !! AST.id w) as [old|] eqn:Hold; [|done].
            by apply (Ha (AST.id w)).
         ++ by apply Forall_singleton.
      -- rewrite lookup_insert_ne by done. apply Ha.
    * by injection Hhandle as <-.
  - destruct (head (stack st) ≫= Frame.referenceMap) as [refMap|] eqn:Hmap'.
    2:{ apply (f_equal snd) in Hhandle. rewrite expressionExit_skipped in Hhandle by done.
        simpl in Hhandle. by subst st'. }
    destruct (referenceMap_frame st refMap Hmap') as (frame & upper & Hstack & Hmap).
    rewrite (expressionExit_eq env currentSegments node st frame upper refMap Hstack Hmap)
      in Hhandle.
    cbv zeta in Hhandle.
    match type of Hhandle with
    | context [if isSuspension node then ?s else st] =>
        set (st1 := if isSuspension node then s else st) in *
    end.
    assert (Hk1 : dummiesKept env st1).
    { subst st1. destruct (isSuspension node); [|done]. by apply (dummiesKept_ext st). }
    assert (Ha1 : assignmentReferences st1 = assignmentReferences st).
    { subst st1. by destruct (isSuspension node). }
    destruct (assignmentReferences st !! AST.id node) as [references|] eqn:Hrefs.
    + apply (f_equal snd) in Hhandle. simpl in Hhandle. subst st'.
      apply dummiesKept_verify.
      * destruct Hk1 as [Hd Ha]. split; [done|].
        intros w refs. simpl. intros Hw. apply lookup_delete_Some in Hw as [_ Hw].
        by apply (Ha w).
      * destruct Hkept as [_ Ha]. by apply (Ha (AST.id node)).
    + by injection Hhandle as <-.
Qed.

Lemma dummiesKept_reached prefix st :
  run env prefix initialState = (Normal tt, st) → dummiesKept env st.
Proof.
  apply (run_invariant (dummiesKept env) dummiesKept_step).
  split; intros ? ? Hlookup; unfold initialState in Hlookup;
    cbn [dummyVariables assignmentReferences] in Hlookup;
    by rewrite lookup_empty in Hlookup.
Qed.

End Dummies.

(** C9.  A reference without a resolved variable, met inside a function
    (the variable scope of its scope is not that of the global scope) in a
    state that the traversal has reached: [getVariable] returns the dummy of
    its name, which belongs to the global scope, holds the reference and is
    the one filed in [dummyVariables]; [isLocalVariableWithoutEscape] is
    false for it; when the reference has a write expression that is the
    right side of its parent, the handler puts the reference on the list kept
    for that expression; and another unresolved reference of the same name
    gets the same dummy, with both references on it. *)
Theorem unresolved_reference_always_verified (env : Env.t) (prefix : list Event)
    (st : State) (currentSegments : CodePathId → list SegmentId) (node : AST.Node)
    (reference : Reference.t) (referenceName : string) :
  run env prefix initialState = (Normal tt, st) →
  referenceAt st node = Some reference →
  Reference.resolved reference = None →
  Scope.variableScope (Reference.from reference)
    ≠ Scope.variableScope (Env.globalScope env) →
  getReferenceName (Env.getPropertyName env) reference = Normal referenceName →
  let name := AST.name (Reference.identifier reference) in
  let variable := variableFor env reference st in
  let st1 := (getVariable env reference st).2 in
  getVariable env reference st = (Normal variable, st1)
  ∧ Var.id variable = Unresolved name
  ∧ Var.scope variable = Env.globalScope env
  ∧ reference ∈ Var.references variable
  ∧ dummyVariables st1 !! name = Some variable
  ∧ isLocalVariableWithoutEscape (Env.getPropertyName env) variable referenceName
    = Normal false
  ∧ (∀ writeExpr assignment,
       getWriteExpr env reference = Normal (Some writeExpr) →
       AST.parent writeExpr = Some assignment →
       AST.right assignment = Some (AST.id writeExpr) →
       ∃ st', Identifier env currentSegments node st = (Normal tt, st')
              ∧ assignmentReferences st' !! AST.id writeExpr
                = Some (default [] (assignmentReferences st !! AST.id writeExpr)
                        ++ [reference]))
  ∧ (∀ other,
       Reference.resolved other = None →
       AST.name (Reference.identifier other) = name →
       Var.id (variableFor env other st1) = Var.id variable
       ∧ Var.references (variableFor env other st1)
         = Var.references variable ++ [other]).
Proof.
  intros Hrun Href Hres Hscope Hname name variable st1.
  pose proof (dummiesKept_reached env prefix st Hrun) as Hkept.
  assert (Hr : namable env reference) by (unfold namable; by rewrite Hname).
  assert (Hvar : variable = pushedDummy env name (dummyVariables st !! name) reference).
  { subst variable. unfold variableFor. by rewrite Hres. }
  destruct (pushedDummy_kept env st reference Hkept Hr) as (Hid & Hsc & Hrefs).
  fold name in Hid, Hsc, Hrefs. rewrite <- Hvar in Hid, Hsc, Hrefs.
  assert (Hin : reference ∈ Var.references variable).
  { rewrite Hvar. unfold pushedDummy. simpl. apply elem_of_app. right. apply list_elem_of_here. }
  assert (Hst1 : dummyVariables st1 !! name = Some variable).
  { subst st1. rewrite getVariable_eq, Hres. simpl. apply lookup_insert_eq. }
  assert (Hlocal : isLocalVariableWithoutEscape (Env.getPropertyName env) variable
                     referenceName = Normal false).
  { apply (isLocalVariableWithoutEscape_false _ _ _ reference); try done.
    by rewrite Hsc. }
  split; [subst st1; by rewrite getVariable_eq|].
  repeat (split; [done|]). split.
  - intros writeExpr assignment Hwrite Hparent Hright.
    destruct (stack st) as [|frame upper] eqn:Hstack.
    { unfold referenceAt in Href. by rewrite Hstack in Href. }
    rewrite (Identifier_found env currentSegments node st frame upper reference Hstack Href).
    destruct (getVariable_frame env reference st) as (Ha & _ & _ & _).
    cbv zeta in *. fold st1 in Ha |- *. fold variable.
    rewrite Hname, Hwrite.
    assert (∃ fresh, isFreshRead reference (Some writeExpr) = Normal fresh) as [fresh ->].
    { unfold isFreshRead, parentOf. rewrite Hparent.
      destruct (Reference.isRead reference); by eexists. }
    assert (needsVerification env variable referenceName (Some writeExpr)
            = Normal (Some writeExpr)) as ->.
    { unfold needsVerification, parentOf. rewrite Hparent. simpl.
      rewrite bool_decide_eq_true_2 by done. by rewrite Hlocal. }
    eexists. split; [done|]. simpl. unfold pushAssignmentReference.
    rewrite lookup_insert_eq. destruct fresh; simpl; by rewrite Ha.
  - intros other Hother Hsame. unfold variableFor. rewrite Hother, Hsame.
    fold name. rewrite Hst1. done.
Qed.

Lemma unresolved_reference_always_verified_witness :
  let env := Examples.env "+=" "AwaitExpression" Examples.globalScope (Some "b") in
  let st := (run env (Examples.entering "+=" "AwaitExpression" None) initialState).2 in
  let reference := Examples.refA "+=" None in
  Var.id (variableFor env reference st) = Unresolved "a"
  ∧ isLocalVariableWithoutEscape (Env.getPropertyName env)
      (variableFor env reference st) "a.b" = Normal false
  ∧ ∃ st', Identifier env Examples.currentSegments (Examples.a "+=") st = (Normal tt, st')
           ∧ assignmentReferences st' !! 8 = Some [reference].
Proof.
  intros env st reference.
  destruct (unresolved_reference_always_verified env
              (Examples.entering "+=" "AwaitExpression" None) st
              Examples.currentSegments (Examples.a "+=") reference "a.b")
    as (_ & Hid & _ & _ & _ & Hlocal & Hpush & _).
  - vm_compute. reflexivity.
  - reflexivity.
  - reflexivity.
  - simpl. lia.
  - reflexivity.
  - split; [exact Hid|]. split; [exact Hlocal|].
    exact (Hpush (Examples.right "+=" "AwaitExpression") (Examples.assignment "+=")
             eq_refl eq_refl eq_refl).
Defined.

(** * Further properties *)

(** ** More about the segment store *)

(** X1.  [isOutdated] answers true exactly when one of the given segments
    has an entry whose outdated reads hold the variable.  Segments without
    an entry and fresh reads do not count. *)
Theorem isOutdated_on_some_segment (segments : list SegmentId) (variable : VarId)
    (self : SegmentInfo.t) :
  SegmentInfo.isOutdated segments variable self = true
  ↔ ∃ segment info, segment ∈ segments ∧ self !! segment = Some info
                    ∧ variable ∈ SegmentInfo.outdatedReadVariables info.
Proof. apply isOutdated_true. Qed.

(** X2.  After [markAsRead], the entry of a listed segment that has one
    holds the variable among its fresh reads and keeps its outdated reads.
    Every other lookup is as before: a listed segment without an entry gets
    none. *)
Theorem markAsRead_postcondition (segments : list SegmentId) (variable : VarId)
    (self : SegmentInfo.t) (segment : SegmentId) :
  SegmentInfo.markAsRead segments variable self !! segment
  = if decide (segment ∈ segments)
    then (λ info, {| SegmentInfo.outdatedReadVariables :=
                       SegmentInfo.outdatedReadVariables info;
                     SegmentInfo.freshReadVariables :=
                       SegmentInfo.freshReadVariables info ∪ {[variable]} |})
         <$> self !! segment
    else self !! segment.
Proof. apply markAsRead_lookup. Qed.

(** X3.  A variable that is read on an initialized segment and then made
    outdated there is outdated for every list of segments that holds this
    one. *)
Theorem read_then_suspend_is_outdated (read suspended checked : list SegmentId)
    (variable : VarId) (self : SegmentInfo.t) (segment : SegmentId) :
  segment ∈ read → segment ∈ suspended → segment ∈ checked →
  is_Some (self !! segment) →
  SegmentInfo.isOutdated checked variable
    (SegmentInfo.makeOutdated suspended (SegmentInfo.markAsRead read variable self))
  = true.
Proof.
  intros Hr Hs Hc [info Hinfo]. apply isOutdated_true.
  exists segment, (SegmentInfo.outdate (SegmentInfo.addFresh variable info)).
  split; [done|]. split.
  - rewrite makeOutdated_lookup, decide_True by done.
    rewrite markAsRead_lookup, decide_True by done. by rewrite Hinfo.
  - simpl. set_solver.
Qed.

Lemma read_then_suspend_is_outdated_witness :
  SegmentInfo.isOutdated [3; 1] Examples.y
    (SegmentInfo.makeOutdated [2; 3] (SegmentInfo.markAsRead [3] Examples.y Examples.store))
  = true.
Proof.
  apply (read_then_suspend_is_outdated [3] [2; 3] [3; 1] Examples.y Examples.store 3).
  - apply list_elem_of_here.
  - apply list_elem_of_further, list_elem_of_here.
  - apply list_elem_of_here.
  - by eexists.
Defined.

(** X4.  A variable that is outdated on a segment stays so through every
    sequence of calls that does not initialize that segment again: neither
    [markAsRead], nor [makeOutdated], nor the initialization of another
    segment clears it. *)
Theorem outdated_until_initialized (calls : list SegmentInfo.Call) (self : SegmentInfo.t)
    (segment : SegmentId) (info : SegmentInfo.Info) (variable : VarId) :
  forallb (λ c, negb (SegmentInfo.initializes segment c)) calls = true →
  self !! segment = Some info →
  variable ∈ SegmentInfo.outdatedReadVariables info →
  ∃ info', foldl SegmentInfo.call self calls !! segment = Some info'
           ∧ variable ∈ SegmentInfo.outdatedReadVariables info'.
Proof.
  revert self info. induction calls as [|c calls IH]; intros self info Hcalls Hs Hv.
  - by exists info.
  - simpl in Hcalls. apply andb_true_iff in Hcalls as [Hc Hcalls].
    apply negb_true_iff in Hc. simpl.
    destruct c as [started|segments read|segments]; simpl in *.
    + apply bool_decide_eq_false in Hc.
      apply (IH _ info); [done| |done]. by rewrite initialize_lookup_ne.
    + apply (IH _ (if decide (segment ∈ segments)
                   then SegmentInfo.addFresh read info else info)); [done| |].
      * rewrite markAsRead_lookup, Hs. by case_decide.
      * by case_decide.
    + apply (IH _ (if decide (segment ∈ segments)
                   then SegmentInfo.outdate info else info)); [done| |].
      * rewrite makeOutdated_lookup, Hs. by case_decide.
      * case_decide; [|done]. simpl. set_solver.
Qed.

Lemma outdated_until_initialized_witness :
  ∃ info', foldl SegmentInfo.call Examples.store
             [SegmentInfo.CallMarkAsRead [1; 3] Examples.y;
              SegmentInfo.CallMakeOutdated [1];
              SegmentInfo.CallInitialize Examples.joinSegment] !! 1 = Some info'
           ∧ Examples.x ∈ SegmentInfo.outdatedReadVariables info'.
Proof.
  apply (outdated_until_initialized _ Examples.store 1 Examples.info1 Examples.x).
  - reflexivity.
  - reflexivity.
  - unfold Examples.info1. simpl. set_solver.
Defined.

(** X5.  [markAsRead], [makeOutdated] and [isOutdated] take their segments
    as a set: two lists with the same members, in any order and with any
    repeats, give the same store and the same answer. *)
Theorem segments_as_a_set (segments segments' : list SegmentId) (variable : VarId)
    (self : SegmentInfo.t) :
  (∀ s, s ∈ segments ↔ s ∈ segments') →
  SegmentInfo.markAsRead segments variable self
  = SegmentInfo.markAsRead segments' variable self
  ∧ SegmentInfo.makeOutdated segments self = SegmentInfo.makeOutdated segments' self
  ∧ SegmentInfo.isOutdated segments variable self
    = SegmentInfo.isOutdated segments' variable self.
Proof.
  intros Hsame. split; [|split].
  - apply map_eq. intros s. rewrite !markAsRead_lookup.
    specialize (Hsame s). repeat case_decide; naive_solver.
  - apply map_eq. intros s. rewrite !makeOutdated_lookup.
    specialize (Hsame s). repeat case_decide; naive_solver.
  - destruct (SegmentInfo.isOutdated segments variable self) eqn:H1,
             (SegmentInfo.isOutdated segments' variable self) eqn:H2; try done.
    + apply isOutdated_true in H1 as (s & info & Hin & Hs & Hv).
      assert (SegmentInfo.isOutdated segments' variable self = true) as H3.
      { apply isOutdated_true. exists s, info. by rewrite <- Hsame. }
      congruence.
    + apply isOutdated_true in H2 as (s & info & Hin & Hs & Hv).
      assert (SegmentInfo.isOutdated segments variable self = true) as H3.
      { apply isOutdated_true. exists s, info. by rewrite Hsame. }
      congruence.
Qed.

Lemma segments_as_a_set_witness :
  SegmentInfo.markAsRead [1; 3] Examples.y Examples.store
  = SegmentInfo.markAsRead [3; 1; 3] Examples.y Examples.store
  ∧ SegmentInfo.makeOutdated [1; 3] Examples.store
    = SegmentInfo.makeOutdated [3; 1; 3] Examples.store
  ∧ SegmentInfo.isOutdated [1; 3] Examples.y Examples.store
    = SegmentInfo.isOutdated [3; 1; 3] Examples.y Examples.store.
Proof.
  apply (segments_as_a_set [1; 3] [3; 1; 3] Examples.y Examples.store).
  intros s. rewrite !elem_of_cons. naive_solver.
Defined.

(** X6.  [markAsRead] and [makeOutdated] are idempotent: the same call a
    second time changes nothing. *)
Theorem repeated_call_changes_nothing (segments : list SegmentId) (variable : VarId)
    (self : SegmentInfo.t) :
  SegmentInfo.markAsRead segments variable (SegmentInfo.markAsRead segments variable self)
  = SegmentInfo.markAsRead segments variable self
  ∧ SegmentInfo.makeOutdated segments (SegmentInfo.makeOutdated segments self)
    = SegmentInfo.makeOutdated segments self.
Proof.
  split; apply map_eq; intros s.
  - rewrite !markAsRead_lookup. case_decide; [|done].
    destruct (self !! s); simpl; [by rewrite addFresh_idemp|done].
  - rewrite !makeOutdated_lookup. case_decide; [|done].
    destruct (self !! s); simpl; [by rewrite outdate_idemp|done].
Qed.

(** X7.  Only [initialize] makes entries: [markAsRead] and [makeOutdated]
    keep the set of segments that have an entry, and [initialize] adds the
    segment's own. *)
Theorem entries_come_from_initialize (segments : list SegmentId) (variable : VarId)
    (segment : PathSegment.t) (self : SegmentInfo.t) :
  dom (SegmentInfo.markAsRead segments variable self) = dom self
  ∧ dom (SegmentInfo.makeOutdated segments self) = dom self
  ∧ dom (SegmentInfo.initialize segment self) = {[PathSegment.id segment]} ∪ dom self.
Proof.
  split; [|split].
  - apply set_eq. intros s. rewrite !elem_of_dom, markAsRead_lookup.
    case_decide; [|done]. by rewrite fmap_is_Some.
  - apply set_eq. intros s. rewrite !elem_of_dom, makeOutdated_lookup.
    case_decide; [|done]. by rewrite fmap_is_Some.
  - unfold SegmentInfo.initialize. apply dom_insert_L.
Qed.

(** X8.  [initialize] overwrites what the store held for the segment
    itself: when the segment is not among its own predecessors, a former
    entry has no influence on the result. *)
Theorem initialize_discards_own_entry (segment : PathSegment.t) (self : SegmentInfo.t)
    (info : SegmentInfo.Info) :
  PathSegment.id segment ∉ PathSegment.prevSegments segment →
  SegmentInfo.initialize segment (<[PathSegment.id segment := info]> self)
  = SegmentInfo.initialize segment self.
Proof.
  intros Hnot.
  assert (Hsame : omap (λ p, <[PathSegment.id segment := info]> self !! p)
                       (PathSegment.prevSegments segment)
                  = omap (λ p, self !! p) (PathSegment.prevSegments segment)).
  { revert Hnot. generalize (PathSegment.prevSegments segment). intros prevs.
    induction prevs as [|p prevs IH]; intros Hnot; [done|].
    apply not_elem_of_cons in Hnot as [Hne Hnot]. csimpl.
    rewrite lookup_insert_ne by done. by rewrite (IH Hnot). }
  unfold SegmentInfo.initialize. rewrite !initialize_fold, Hsame.
  apply insert_insert_eq.
Qed.

Lemma initialize_discards_own_entry_witness :
  SegmentInfo.initialize Examples.joinSegment (<[4 := Examples.info1]> Examples.store)
  = SegmentInfo.initialize Examples.joinSegment Examples.store.
Proof.
  apply (initialize_discards_own_entry Examples.joinSegment Examples.store Examples.info1).
  simpl. rewrite !not_elem_of_cons. repeat split; try lia. apply not_elem_of_nil.
Defined.

(** ** More about the reference map and the names *)

Lemma ScopeTree_children_ind (P : ScopeTree → Prop) :
  (∀ scope references childScopes,
     Forall P childScopes → P (ScopeNode scope references childScopes)) →
  ∀ scope, P scope.
Proof.
  intros H. fix IH 1. intros [scope references childScopes]. apply H.
  induction childScopes as [|child childScopes IHc]; constructor; [apply IH|exact IHc].
Qed.

Lemma fileAll_app refs1 refs2 m :
  fileAll (refs1 ++ refs2) m = fileAll refs2 (fileAll refs1 m).
Proof. unfold fileAll. apply foldl_app. Qed.

Lemma createReferenceMap_fileAll scope out :
  createReferenceMap scope out = fileAll (collected scope) out.
Proof.
  revert out. induction scope as [scope references childScopes IH]
    using ScopeTree_children_ind. intros out.
  simpl. rewrite fileAll_app. fold (fileAll references out).
  generalize (fileAll references out). clear out.
  induction IH as [|child childScopes Hchild _ IHrest]; intros m; [done|].
  simpl. rewrite fileAll_app, <- IHrest. f_equal.
  case_decide; [apply Hchild|done].
Qed.

Lemma fileAll_lookup references m key :
  fileAll references m !! key
  = match last (List.filter (λ r, bool_decide (AST.id (Reference.identifier r) = key))
                            references) with
    | Some reference => Some reference
    | None => m !! key
    end.
Proof.
  revert m. induction references as [|r references IH]; intros m; [done|].
  unfold fileAll in *. simpl. rewrite IH.
  case_bool_decide as Hk; simpl.
  - destruct (List.filter _ references) as [|r' rest] eqn:Hf.
    + simpl. by rewrite <- Hk, lookup_insert_eq.
    + rewrite last_cons_cons. destruct (last (r' :: rest)) eqn:Hl; [done|].
      by apply last_None in Hl.
  - destruct (last _); [done|]. by rewrite lookup_insert_ne.
Qed.

(** X9.  Lookup in the map that [createReferenceMap] builds: the last of
    the collected references whose identifier is the key, and when there is
    none, what the map passed in held. *)
Theorem createReferenceMap_lookup (scope : ScopeTree) (out : gmap NodeId Reference.t)
    (key : NodeId) :
  createReferenceMap scope out !! key
  = match last (List.filter (λ r, bool_decide (AST.id (Reference.identifier r) = key))
                            (collected scope)) with
    | Some reference => Some reference
    | None => out !! key
    end.
Proof. rewrite createReferenceMap_fileAll. apply fileAll_lookup. Qed.

(** X10.  When no two collected references share an identifier, every
    collected reference is found under its identifier. *)
Theorem createReferenceMap_finds_reference (scope : ScopeTree)
    (out : gmap NodeId Reference.t) (reference : Reference.t) :
  NoDup (map (λ r, AST.id (Reference.identifier r)) (collected scope)) →
  reference ∈ collected scope →
  createReferenceMap scope out !! AST.id (Reference.identifier reference)
  = Some reference.
Proof.
  intros Hnodup Hin. rewrite createReferenceMap_fileAll, fileAll_lookup.
  induction (collected scope) as [|r refs IH]; [by apply elem_of_nil in Hin|].
  simpl in Hnodup. apply NoDup_cons in Hnodup as [Hr Hnodup].
  assert (Hrest : ∀ r', r' ∈ refs →
            AST.id (Reference.identifier r') = AST.id (Reference.identifier r) → False).
  { intros r' Hr' Heq. apply Hr. rewrite <- Heq. apply list_elem_of_fmap. eauto. }
  apply elem_of_cons in Hin as [->|Hin].
  - simpl. rewrite bool_decide_eq_true_2 by done.
    assert (List.filter (λ r0, bool_decide (AST.id (Reference.identifier r0)
                                            = AST.id (Reference.identifier r))) refs = [])
      as ->; [|done].
    clear IH Hnodup Hr. induction refs as [|r' refs IH]; [done|]. simpl.
    rewrite bool_decide_eq_false_2.
    + apply IH. intros r'' Hr''. apply Hrest. by right.
    + intros Heq. apply (Hrest r'); [by left|done].
  - simpl. rewrite bool_decide_eq_false_2.
    + by apply IH.
    + intros Heq. by apply (Hrest reference).
Qed.

Lemma createReferenceMap_finds_reference_witness :
  createReferenceMap (Examples.treeF "=" "AwaitExpression" None) ∅ !! 9
  = Some (Examples.refC "=" "AwaitExpression").
Proof.
  apply (createReferenceMap_finds_reference (Examples.treeF "=" "AwaitExpression" None) ∅
           (Examples.refC "=" "AwaitExpression")).
  - simpl. apply NoDup_cons. split.
    + rewrite elem_of_cons. intros [H|H]; [discriminate H|by apply elem_of_nil in H].
    + apply NoDup_singleton.
  - simpl. apply list_elem_of_further, list_elem_of_here.
Defined.

(** X11.  Child scopes of type function contribute nothing, with all
    that is below them: the map is the one built from the scope with these
    children removed. *)
Theorem createReferenceMap_skips_functions (scope : Scope.t)
    (references : list Reference.t) (childScopes : list ScopeTree)
    (out : gmap NodeId Reference.t) :
  createReferenceMap (ScopeNode scope references childScopes) out
  = createReferenceMap
      (ScopeNode scope references
         (List.filter (λ childScope,
                         bool_decide (Scope.type (scopeOf childScope) ≠ "function"))
                      childScopes))
      out.
Proof.
  simpl. generalize (foldl (λ m reference,
                       <[AST.id (Reference.identifier reference) := reference]> m)
                     out references).
  induction childScopes as [|child childScopes IH]; intros m; [done|].
  simpl. case_decide as Hf.
  - rewrite bool_decide_eq_true_2 by done. simpl.
    rewrite decide_True by done. apply IH.
  - rewrite bool_decide_eq_false_2 by (by intros ?). apply IH.
Qed.

Section MoreNames.
Context (getPropertyName : AST.Node → Scope.t → option string).

(** X12.  [getReferenceName] in closed form: the name of the identifier,
    then, for each member expression of the chain of which the node below is
    the object, the property name or a star, joined by dots.  It throws
    exactly when the top of that chain has no parent. *)
Theorem getReferenceName_exact (reference : Reference.t) :
  getReferenceName getPropertyName reference
  = match AST.parent (chainTop (Reference.identifier reference)) with
    | Some _ =>
        Normal (String.concat "."
                  (AST.name (Reference.identifier reference)
                   :: map (λ member,
                             orStar (getPropertyName member (Reference.from reference)))
                          (objectChain (Reference.identifier reference))))
    | None => TypeError
    end.
Proof.
  unfold getReferenceName. rewrite getReferenceName_loop_chain.
  by destruct (AST.parent (chainTop (Reference.identifier reference))).
Qed.

Lemma filterC_TypeError {A} (p : A → Completion bool) (xs : list A) :
  filterC p xs = TypeError ↔ Exists (λ x, p x = TypeError) xs.
Proof.
  induction xs as [|x xs IH]; simpl.
  - split; [done|]. intros H. by apply Exists_nil in H.
  - rewrite Exists_cons. destruct (p x) as [keep|] eqn:Hp; simpl.
    + destruct (filterC p xs) as [rest|] eqn:Hrest; simpl.
      * split; [done|]. intros [H|H]; [done|]. by apply IH in H.
      * split; [|done]. intros _. right. by apply IH.
    + split; [|done]. intros _. by left.
Qed.

(** X13.  [isLocalVariableWithoutEscape] throws exactly when
    [getReferenceName] throws for one of the variable's references, whatever
    the scopes are. *)
Theorem isLocalVariableWithoutEscape_throws (variable : Var.t) (referenceName : string) :
  isLocalVariableWithoutEscape getPropertyName variable referenceName = TypeError
  ↔ Exists (λ reference, getReferenceName getPropertyName reference = TypeError)
           (Var.references variable).
Proof.
  unfold isLocalVariableWithoutEscape.
  destruct (filterC _ (Var.references variable)) as [same|] eqn:Hf; simpl.
  - split; [done|]. intros Hex.
    assert (filterC (λ reference, n ← getReferenceName getPropertyName reference;
                                  Normal (bool_decide (n = referenceName)))
                    (Var.references variable) = TypeError) as Ht.
    { apply filterC_TypeError. eapply Exists_impl; [exact Hex|].
      intros r Hr. simpl. by rewrite Hr. }
    congruence.
  - split; [|done]. intros _. apply filterC_TypeError in Hf.
    eapply Exists_impl; [exact Hf|]. intros r Hr. simpl in Hr.
    by destruct (getReferenceName getPropertyName r).
Qed.

(** X14.  When [getReferenceName] throws for no reference of the variable,
    [isLocalVariableWithoutEscape] answers true exactly when every reference
    of the variable that has the given name is made from a scope whose
    variable scope is that of the variable's own scope. *)
Theorem local_without_escape_meaning (variable : Var.t) (referenceName : string) :
  Forall (λ r, getReferenceName getPropertyName r ≠ TypeError) (Var.references variable) →
  isLocalVariableWithoutEscape getPropertyName variable referenceName = Normal true
  ↔ ∀ reference, reference ∈ Var.references variable →
      getReferenceName getPropertyName reference = Normal referenceName →
      Scope.variableScope (Reference.from reference)
      = Scope.variableScope (Var.scope variable).
Proof. apply isLocalVariableWithoutEscape_true. Qed.

End MoreNames.

Lemma local_without_escape_meaning_witness :
  let env := Examples.env "+=" "AwaitExpression" Examples.scopeF (Some "b") in
  isLocalVariableWithoutEscape (Env.getPropertyName env) (resolvedVariable env 0) "a.b"
  = Normal true
  ↔ ∀ reference, reference ∈ Var.references (resolvedVariable env 0) →
      getReferenceName (Env.getPropertyName env) reference = Normal "a.b" →
      Scope.variableScope (Reference.from reference)
      = Scope.variableScope (Var.scope (resolvedVariable env 0)).
Proof.
  intros env.
  apply (local_without_escape_meaning (Env.getPropertyName env)
           (resolvedVariable env 0) "a.b").
  apply Forall_cons. split; [discriminate|apply Forall_nil_2].
Defined.

(** ** More about the handlers *)

Section MoreHandlers.
Context (env : Env.t).

Lemma Identifier_stack currentSegments node st :
  stack (Identifier env currentSegments node st).2 = stack st.
Proof.
  destruct (referenceAt st node) as [reference|] eqn:Href;
    [|by rewrite Identifier_skipped].
  destruct (referenceAt_frame st node reference Href) as (frame & upper & Hstack).
  rewrite (Identifier_found env currentSegments node st frame upper reference Hstack Href).
  destruct (getVariable_frame env reference st) as (_ & _ & Hk & _). simpl in *.
  destruct (getReferenceName _ reference); [|done].
  destruct (getWriteExpr env reference) as [writeExpr|]; [|done].
  destruct (isFreshRead reference writeExpr) as [[]|]; [| |done];
    destruct (needsVerification _ _ _ _) as [[w|]|]; done.
Qed.

(** What [":expression:exit"] does to the state apart from reporting. *)
Lemma expressionExit_effect currentSegments node st frame upper refMap :
  stack st = frame :: upper →
  Frame.referenceMap frame = Some refMap →
  let st' := (expressionExit env currentSegments node st).2 in
  stack st' = stack st
  ∧ segmentInfo st'
    = (if isSuspension node
       then SegmentInfo.makeOutdated (currentSegments (Frame.codePath frame))
                                     (segmentInfo st)
       else segmentInfo st)
  ∧ assignmentReferences st' = delete (AST.id node) (assignmentReferences st).
Proof.
  intros Hstack Hmap.
  rewrite (expressionExit_eq env currentSegments node st frame upper refMap Hstack Hmap).
  cbv zeta.
  destruct (assignmentReferences st !! AST.id node) as [references|] eqn:Hrefs.
  - match goal with
    | |- context [forEach ?body references ?s] =>
        destruct (forEach_verify_frame env (currentSegments (Frame.codePath frame))
                    node references s) as (Ha & Hs & Hk & _)
    end.
    rewrite Ha, Hs, Hk. by destruct (isSuspension node).
  - simpl. rewrite delete_id by done. by destruct (isSuspension node).
Qed.

(** [getVariable] changes no variable's identity. *)
Lemma variableFor_id_getVariable reference other st :
  Var.id (variableFor env reference (getVariable env other st).2)
  = Var.id (variableFor env reference st).
Proof.
  rewrite getVariable_eq. simpl.
  destruct (Reference.resolved other) eqn:Hother; [done|].
  unfold variableFor at 1 3. destruct (Reference.resolved reference); [done|].
  simpl.
  destruct (decide (AST.name (Reference.identifier other)
                    = AST.name (Reference.identifier reference))) as [Heq|Hne].
  - rewrite Heq, lookup_insert_eq. unfold variableFor. rewrite Hother, Heq. simpl.
    by destruct (dummyVariables st !! AST.name (Reference.identifier reference)).
  - by rewrite lookup_insert_ne.
Qed.

Lemma outdatedIn_verify currentSegments currentSegments' node other st reference :
  outdatedIn env currentSegments' (verify env currentSegments node other st).2 reference
  = outdatedIn env currentSegments' st reference.
Proof.
  unfold outdatedIn.
  destruct (verify_frame env currentSegments node other st) as (_ & Hs & _).
  rewrite Hs. f_equal. rewrite verify_eq. cbv zeta.
  destruct (SegmentInfo.isOutdated _ _ _); [|apply variableFor_id_getVariable].
  destruct (parentOf node); apply variableFor_id_getVariable.
Qed.

(** The loop of [":expression:exit"] on a node that has a parent: one
    report for each reference whose variable is outdated. *)
Lemma forEach_verify_reports currentSegments node assignment references st :
  AST.parent node = Some assignment →
  ∃ st', forEach (verify env currentSegments node) references st = (Normal tt, st')
         ∧ reported st'
           = reported st
             ++ replicate (length (List.filter (outdatedIn env currentSegments st)
                                               references))
                          (reportFor env assignment).
Proof.
  intros Hparent. revert st.
  induction references as [|reference references IH]; intros st.
  - exists st. split; [done|]. simpl. by rewrite app_nil_r.
  - simpl. rewrite bind_eq.
    pose proof (outdatedIn_verify currentSegments currentSegments node reference st)
      as Hsame.
    destruct (getVariable_frame env reference st) as (_ & Hs & _ & Hr).
    rewrite verify_eq in *. cbv zeta in *.
    unfold parentOf in *. rewrite Hparent in *.
    fold (outdatedIn env currentSegments st reference).
    assert (Hout : SegmentInfo.isOutdated currentSegments
                     (Var.id (variableFor env reference st))
                     (segmentInfo (getVariable env reference st).2)
                   = outdatedIn env currentSegments st reference).
    { unfold outdatedIn. by rewrite Hs. }
    rewrite Hout in *.
    destruct (outdatedIn env currentSegments st reference) eqn:Hr1; simpl in Hsame.
    + match goal with
      | |- context [forEach _ references ?s] => destruct (IH s) as (st' & -> & Hrep)
      end.
      exists st'. split; [done|].
      rewrite (filter_ext _ _ Hsame) in Hrep. rewrite Hrep. simpl. rewrite Hr.
      by rewrite <- app_assoc.
    + destruct (IH (getVariable env reference st).2) as (st' & -> & Hrep).
      exists st'. split; [done|].
      rewrite (filter_ext _ _ Hsame) in Hrep. by rewrite Hrep, Hr.
Qed.

(** The same loop on a node without a parent: the first outdated reference
    throws, and nothing is reported. *)
Lemma forEach_verify_orphan currentSegments node references st :
  AST.parent node = None →
  let result := forEach (verify env currentSegments node) references st in
  reported result.2 = reported st
  ∧ result.1 = if existsb (outdatedIn env currentSegments st) references
               then TypeError else Normal tt.
Proof.
  intros Hparent. revert st.
  induction references as [|reference references IH]; intros st; [done|].
  simpl. rewrite bind_eq.
  pose proof (outdatedIn_verify currentSegments currentSegments node reference st)
    as Hsame.
  destruct (getVariable_frame env reference st) as (_ & Hs & _ & Hr).
  rewrite verify_eq in *. cbv zeta in *.
  unfold parentOf in *. rewrite Hparent in *.
  assert (Hout : SegmentInfo.isOutdated currentSegments
                   (Var.id (variableFor env reference st))
                   (segmentInfo (getVariable env reference st).2)
                 = outdatedIn env currentSegments st reference).
  { unfold outdatedIn. by rewrite Hs. }
  rewrite Hout in *.
  destruct (outdatedIn env currentSegments st reference) eqn:Hr1; simpl in Hsame.
  - done.
  - destruct (IH (getVariable env reference st).2) as [Hrep Hres]. simpl.
    split; [by rewrite Hrep|]. rewrite Hres.
    assert (existsb (outdatedIn env currentSegments (getVariable env reference st).2)
                    references
            = existsb (outdatedIn env currentSegments st) references) as ->; [|done].
    clear -Hsame. induction references as [|r references IH]; [done|].
    simpl. by rewrite Hsame, IH.
Qed.

End MoreHandlers.

(** X15.  Where the analysis is on, the exit of an expression leaves the
    stack alone, removes the references that were pending for the node,
    whether it reported them or not, and makes the current segments outdated
    exactly when the node is an [await] or a [yield]. *)
Theorem exit_consumes_pending (env : Env.t)
    (currentSegments : CodePathId → list SegmentId) (node : AST.Node) (st : State)
    (frame : Frame.t) (upper : list Frame.t) (refMap : gmap NodeId Reference.t) :
  stack st = frame :: upper →
  Frame.referenceMap frame = Some refMap →
  let st' := (expressionExit env currentSegments node st).2 in
  assignmentReferences st' = delete (AST.id node) (assignmentReferences st)
  ∧ stack st' = stack st
  ∧ segmentInfo st'
    = (if isSuspension node
       then SegmentInfo.makeOutdated (currentSegments (Frame.codePath frame))
                                     (segmentInfo st)
       else segmentInfo st).
Proof.
  intros Hstack Hmap.
  destruct (expressionExit_effect env currentSegments node st frame upper refMap
              Hstack Hmap) as (Hk & Hs & Ha).
  done.
Qed.

Lemma exit_consumes_pending_witness :
  let env := Examples.env "+=" "AwaitExpression" Examples.globalScope (Some "b") in
  let st := (run env (take 9 (Examples.traversal "+=" "AwaitExpression" (Some 0)))
                 initialState).2 in
  let st' := (expressionExit env Examples.currentSegments
                (Examples.right "+=" "AwaitExpression") st).2 in
  assignmentReferences st' = delete 8 (assignmentReferences st)
  ∧ stack st' = stack st
  ∧ segmentInfo st' = SegmentInfo.makeOutdated [1] (segmentInfo st).
Proof.
  intros env st.
  apply (exit_consumes_pending env Examples.currentSegments
           (Examples.right "+=" "AwaitExpression") st
           (Frame.mk 1 (Some (createReferenceMap
                                (Examples.treeF "+=" "AwaitExpression" (Some 0)) ∅)))
           [] (createReferenceMap (Examples.treeF "+=" "AwaitExpression" (Some 0)) ∅));
    reflexivity.
Defined.

Lemma exit_reports_each_outdated_reference_aux (env : Env.t)
    (currentSegments : CodePathId → list SegmentId) (node assignment : AST.Node)
    (st : State) (frame : Frame.t) (upper : list Frame.t)
    (refMap : gmap NodeId Reference.t) :
  stack st = frame :: upper →
  Frame.referenceMap frame = Some refMap →
  AST.parent node = Some assignment →
  let current := currentSegments (Frame.codePath frame) in
  let st1 := if isSuspension node
             then set_segmentInfo (SegmentInfo.makeOutdated current) st
             else st in
  ∃ st', expressionExit env currentSegments node st = (Normal tt, st')
         ∧ reported st'
           = reported st
             ++ replicate
                  (length (List.filter (outdatedIn env current st1)
                             (default [] (assignmentReferences st !! AST.id node))))
                  (reportFor env assignment).
Proof.
  intros Hstack Hmap Hparent current st1.
  rewrite (expressionExit_eq env currentSegments node st frame upper refMap Hstack Hmap).
  cbv zeta. fold current. fold st1.
  assert (Hr1 : reported st1 = reported st) by (subst st1; by destruct (isSuspension node)).
  destruct (assignmentReferences st !! AST.id node) as [references|].
  - destruct (forEach_verify_reports env current node assignment references
                (set_assignmentReferences (delete (AST.id node)) st1) Hparent)
      as (st' & Hrun & Hrep).
    exists st'. split; [done|]. rewrite Hrep. simpl. by rewrite Hr1.
  - exists st1. split; [done|]. simpl. by rewrite app_nil_r.
Qed.

(** X16.  Where the analysis is on, the exit of a node that has a parent
    completes normally and sends one report for the parent, with the text of
    its left side, for each pending reference whose variable is outdated on
    the current segments, judged after the node's own suspension when it is
    an [await] or a [yield].  Earlier reports are kept. *)
Theorem exit_reports_each_outdated_reference (env : Env.t)
    (currentSegments : CodePathId → list SegmentId) (node assignment : AST.Node)
    (st : State) (frame : Frame.t) (upper : list Frame.t)
    (refMap : gmap NodeId Reference.t) :
  stack st = frame :: upper →
  Frame.referenceMap frame = Some refMap →
  AST.parent node = Some assignment →
  let current := currentSegments (Frame.codePath frame) in
  let st1 := if isSuspension node
             then set_segmentInfo (SegmentInfo.makeOutdated current) st
             else st in
  ∃ st', expressionExit env currentSegments node st = (Normal tt, st')
         ∧ reported st'
           = reported st
             ++ replicate
                  (length (List.filter (outdatedIn env current st1)
                             (default [] (assignmentReferences st !! AST.id node))))
                  (reportFor env assignment).
Proof.
  intros Hstack Hmap Hparent.
  by apply (exit_reports_each_outdated_reference_aux env currentSegments node assignment
              st frame upper refMap).
Qed.

Lemma exit_reports_each_outdated_reference_witness :
  let env := Examples.env "+=" "AwaitExpression" Examples.globalScope (Some "b") in
  let st := (run env (take 9 (Examples.traversal "+=" "AwaitExpression" (Some 0)))
                 initialState).2 in
  ∃ st', expressionExit env Examples.currentSegments
           (Examples.right "+=" "AwaitExpression") st = (Normal tt, st')
         ∧ reported st' = reported st ++ [reportFor env (Examples.assignment "+=")].
Proof.
  intros env st.
  apply (exit_reports_each_outdated_reference env Examples.currentSegments
           (Examples.right "+=" "AwaitExpression") (Examples.assignment "+=") st
           (Frame.mk 1 (Some (createReferenceMap
                                (Examples.treeF "+=" "AwaitExpression" (Some 0)) ∅)))
           [] (createReferenceMap (Examples.treeF "+=" "AwaitExpression" (Some 0)) ∅));
    reflexivity.
Defined.

(** X17.  No handler but the exit of an expression reports, and that one
    only appends reports for the parent of the node it leaves.  What was
    reported before is kept, in every case. *)
Theorem only_exits_report (env : Env.t) (event : Event) (st : State) :
  let st' := (handle env event st).2 in
  match event with
  | ExitExpression _ node =>
      match AST.parent node with
      | Some assignment =>
          ∃ n, reported st' = reported st ++ replicate n (reportFor env assignment)
      | None => reported st' = reported st
      end
  | _ => reported st' = reported st
  end.
Proof.
  destruct event as [codePath scope| |segment|currentSegments node|currentSegments node];
    simpl.
  - done.
  - unfold onCodePathEnd. by destruct (stack st).
  - done.
  - apply Identifier_reported.
  - destruct (head (stack st) ≫= Frame.referenceMap) as [refMap|] eqn:Hmap'.
    2:{ rewrite expressionExit_skipped by done.
        destruct (AST.parent node); [|done]. exists 0. simpl. by rewrite app_nil_r. }
    destruct (referenceMap_frame st refMap Hmap') as (frame & upper & Hstack & Hmap).
    destruct (AST.parent node) as [assignment|] eqn:Hparent.
    + destruct (exit_reports_each_outdated_reference_aux env currentSegments node
                  assignment st frame upper refMap Hstack Hmap Hparent)
        as (st' & -> & Hrep).
      eexists. exact Hrep.
    + rewrite (expressionExit_eq env currentSegments node st frame upper refMap
                 Hstack Hmap).
      cbv zeta.
      destruct (assignmentReferences st !! AST.id node) as [references|].
      * match goal with
        | |- context [forEach _ references ?s] =>
            destruct (forEach_verify_orphan env
                        (currentSegments (Frame.codePath frame)) node references s
                        Hparent) as [Hrep _]
        end.
        cbv zeta in Hrep. rewrite Hrep. by destruct (isSuspension node).
      * by destruct (isSuspension node).
Qed.

(** ** More about code paths *)

Section CodePaths.
Context (env : Env.t).

Lemma Identifier_disabled currentSegments node st frame upper :
  stack st = frame :: upper → Frame.referenceMap frame = None →
  Identifier env currentSegments node st = (Normal tt, st).
Proof.
  intros Hstack Hmap. unfold Identifier. rewrite bind_eq. unfold currentFrame at 1.
  by rewrite Hstack, Hmap.
Qed.

Lemma expressionExit_disabled currentSegments node st frame upper :
  stack st = frame :: upper → Frame.referenceMap frame = None →
  expressionExit env currentSegments node st = (Normal tt, st).
Proof.
  intros Hstack Hmap. unfold expressionExit. rewrite bind_eq. unfold currentFrame at 1.
  by rewrite Hstack, Hmap.
Qed.

Lemma run_disabled events st frame upper :
  stack st = frame :: upper → Frame.referenceMap frame = None →
  forallb withinCodePath events = true →
  run env events st
  = (Normal tt,
     set_segmentInfo
       (λ info, foldl (λ info segment, SegmentInfo.initialize segment info) info
                      (startedSegments events)) st).
Proof.
  intros Hstack Hmap. revert st Hstack.
  induction events as [|event events IH]; intros st Hstack Hwithin.
  - by destruct st.
  - simpl in Hwithin. apply andb_true_iff in Hwithin as [Hevent Hwithin].
    rewrite run_cons.
    destruct event as [codePath scope| |segment|currentSegments node|currentSegments node];
      try done.
    + change (handle env (CodePathSegmentStart segment) st)
        with (Normal tt, set_segmentInfo (SegmentInfo.initialize segment) st).
      cbv iota beta. rewrite (IH (set_segmentInfo (SegmentInfo.initialize segment) st));
        done.
    + change (handle env (EnterIdentifier currentSegments node) st)
        with (Identifier env currentSegments node st).
      rewrite (Identifier_disabled _ _ _ _ _ Hstack Hmap). by apply IH.
    + change (handle env (ExitExpression currentSegments node) st)
        with (expressionExit env currentSegments node st).
      rewrite (expressionExit_disabled _ _ _ _ _ Hstack Hmap). by apply IH.
Qed.

Lemma handle_stack_within event st :
  withinCodePath event = true → stack (handle env event st).2 = stack st.
Proof.
  destruct event as [codePath scope| |segment|currentSegments node|currentSegments node];
    try done; intros _; simpl.
  - apply Identifier_stack.
  - destruct (head (stack st) ≫= Frame.referenceMap) as [refMap|] eqn:Hmap';
      [|by rewrite expressionExit_skipped].
    destruct (referenceMap_frame st refMap Hmap') as (frame & upper & Hstack & Hmap).
    by destruct (expressionExit_effect env currentSegments node st frame upper refMap
                   Hstack Hmap) as (Hk & _).
Qed.

Lemma run_depth events st st' front base depth' :
  stack st = front ++ base →
  depthAfter events (length front) = Some depth' →
  run env events st = (Normal tt, st') →
  ∃ front', length front' = depth' ∧ stack st' = front' ++ base.
Proof.
  revert st front. induction events as [|event events IH]; intros st front Hstack Hdepth Hrun.
  - simpl in *. injection Hdepth as <-. injection Hrun as <-. by exists front.
  - rewrite run_cons in Hrun.
    destruct (handle env event st) as [[[]|] st1] eqn:Hhandle; [|done].
    assert (Hst1 : st1 = (handle env event st).2) by by rewrite Hhandle.
    destruct event as [codePath scope| |segment|currentSegments node|currentSegments node].
    + simpl in Hdepth.
      apply (IH st1 ({| Frame.codePath := codePath;
                        Frame.referenceMap :=
                          if resumable scope then Some (createReferenceMap scope ∅)
                          else None |} :: front)); [|done|done].
      rewrite Hst1. simpl. by rewrite Hstack.
    + simpl in Hdepth, Hhandle. unfold onCodePathEnd in Hhandle.
      destruct front as [|frame front]; [done|]. simpl in Hdepth.
      rewrite Hstack in Hhandle. simpl in Hhandle. injection Hhandle as <-.
      by apply (IH (set_stack (λ _, front ++ base) st) front).
    + apply (IH st1 front); [|done|done].
      rewrite Hst1, handle_stack_within; done.
    + apply (IH st1 front); [|done|done].
      rewrite Hst1, handle_stack_within; done.
    + apply (IH st1 front); [|done|done].
      rewrite Hst1, handle_stack_within; done.
Qed.

End CodePaths.

(** X18.  A code path whose scope is not an async or generator function
    gets no reference map, and inside it the handlers do nothing but
    initialize the segments that start: the events complete normally, nothing
    is reported, no reference is registered and no dummy is made. *)
Theorem plain_code_path_disables_analysis (env : Env.t) (codePath : CodePathId)
    (scope : ScopeTree) (events : list Event) (st : State) :
  resumable scope = false →
  forallb withinCodePath events = true →
  ∃ st', run env (CodePathStart codePath scope :: events) st = (Normal tt, st')
         ∧ Frame.referenceMap <$> head (stack st') = Some None
         ∧ dummyVariables st' = dummyVariables st
         ∧ assignmentReferences st' = assignmentReferences st
         ∧ reported st' = reported st
         ∧ segmentInfo st'
           = foldl (λ info segment, SegmentInfo.initialize segment info)
                   (segmentInfo st) (startedSegments events).
Proof.
  intros Hplain Hwithin. rewrite run_cons. simpl.
  unfold resumable in Hplain. rewrite Hplain.
  eexists. split; [by eapply run_disabled|]. done.
Qed.

Lemma plain_code_path_disables_analysis_witness :
  ∃ st', run MoreExamples.env
           [ CodePathStart 0 MoreExamples.programScope;
             CodePathSegmentStart (PathSegment.mk 1 []);
             EnterIdentifier Examples.currentSegments (Examples.a "=");
             ExitExpression Examples.currentSegments MoreExamples.orphan ]
           initialState = (Normal tt, st')
         ∧ Frame.referenceMap <$> head (stack st') = Some None
         ∧ dummyVariables st' = dummyVariables initialState
         ∧ assignmentReferences st' = assignmentReferences initialState
         ∧ reported st' = reported initialState
         ∧ segmentInfo st'
           = SegmentInfo.initialize (PathSegment.mk 1 []) (segmentInfo initialState).
Proof.
  apply (plain_code_path_disables_analysis MoreExamples.env 0 MoreExamples.programScope
           [ CodePathSegmentStart (PathSegment.mk 1 []);
             EnterIdentifier Examples.currentSegments (Examples.a "=");
             ExitExpression Examples.currentSegments MoreExamples.orphan ]
           initialState); reflexivity.
Defined.

(** X19.  A sequence of events that ends every code path it starts, and
    no other, and completes normally leaves the stack as it found it. *)
Theorem balanced_traversal_restores_stack (env : Env.t) (events : list Event)
    (st st' : State) :
  depthAfter events 0 = Some 0 →
  run env events st = (Normal tt, st') →
  stack st' = stack st.
Proof.
  intros Hdepth Hrun.
  destruct (run_depth env events st st' [] (stack st) 0 eq_refl Hdepth Hrun)
    as (front' & Hlen & ->).
  by destruct front'.
Qed.

Lemma balanced_traversal_restores_stack_witness :
  let env := Examples.env "+=" "AwaitExpression" Examples.globalScope (Some "b") in
  let events := Examples.traversal "+=" "AwaitExpression" (Some 0) in
  let st := (run env [CodePathStart 0 MoreExamples.programScope] initialState).2 in
  stack (run env events st).2 = stack st.
Proof.
  intros env events st.
  apply (balanced_traversal_restores_stack env events st (run env events st).2).
  - reflexivity.
  - vm_compute. reflexivity.
Defined.

(** ** More about identifiers and dummies *)

(** X20.  A reference whose write expression is not the right side of its
    parent, as the initializer of a declarator is not, is never registered:
    the visit of its identifier completes normally and leaves the pending
    references and the reports as they were. *)
Theorem initializer_not_registered (env : Env.t)
    (currentSegments : CodePathId → list SegmentId) (node : AST.Node) (st : State)
    (reference : Reference.t) (referenceName : string) (writeExpr declarator : AST.Node) :
  referenceAt st node = Some reference →
  getReferenceName (Env.getPropertyName env) reference = Normal referenceName →
  getWriteExpr env reference = Normal (Some writeExpr) →
  AST.parent writeExpr = Some declarator →
  AST.right declarator ≠ Some (AST.id writeExpr) →
  ∃ st', Identifier env currentSegments node st = (Normal tt, st')
         ∧ assignmentReferences st' = assignmentReferences st
         ∧ reported st' = reported st.
Proof.
  intros Href Hname Hwrite Hparent Hright.
  destruct (referenceAt_frame st node reference Href) as (frame & upper & Hstack).
  rewrite (Identifier_found env currentSegments node st frame upper reference Hstack Href).
  destruct (getVariable_frame env reference st) as (Ha & _ & _ & Hr).
  cbv zeta in *. rewrite Hname, Hwrite.
  assert (∃ fresh, isFreshRead reference (Some writeExpr) = Normal fresh) as [fresh ->].
  { unfold isFreshRead, parentOf. rewrite Hparent.
    destruct (Reference.isRead reference); by eexists. }
  assert (needsVerification env (variableFor env reference st) referenceName
            (Some writeExpr) = Normal None) as ->.
  { unfold needsVerification, parentOf. rewrite Hparent. simpl.
    by rewrite bool_decide_eq_false_2. }
  eexists. split; [done|]. destruct fresh; simpl; by rewrite Ha, Hr.
Qed.

Lemma initializer_not_registered_witness :
  ∃ st', Identifier MoreExamples.env Examples.currentSegments MoreExamples.d
           MoreExamples.inF = (Normal tt, st')
         ∧ assignmentReferences st' = assignmentReferences MoreExamples.inF
         ∧ reported st' = reported MoreExamples.inF.
Proof.
  apply (initializer_not_registered MoreExamples.env Examples.currentSegments
           MoreExamples.d MoreExamples.inF MoreExamples.refD "d"
           MoreExamples.init MoreExamples.declarator).
  - reflexivity.
  - reflexivity.
  - reflexivity.
  - reflexivity.
  - discriminate.
Defined.

Section Dummy.
Context (env : Env.t).

Lemma dummyReferences_getVariable reference st name :
  dummyReferences (getVariable env reference st).2 name
  = dummyReferences st name
    ++ (if bool_decide (Reference.resolved reference = None
                        ∧ AST.name (Reference.identifier reference) = name)
        then [reference] else []).
Proof.
  rewrite getVariable_eq. unfold dummyReferences. simpl.
  destruct (Reference.resolved reference) eqn:Hres.
  - rewrite bool_decide_eq_false_2 by (by intros [? _]). by rewrite app_nil_r.
  - simpl. case_bool_decide as Hname.
    + destruct Hname as [_ <-]. rewrite lookup_insert_eq. simpl.
      unfold variableFor. rewrite Hres. unfold pushedDummy. simpl.
      by destruct (dummyVariables st !! AST.name (Reference.identifier reference)).
    + rewrite lookup_insert_ne by (intros Heq; by apply Hname).
      by rewrite app_nil_r.
Qed.

End Dummy.

(** X21.  Looking up references one after the other never fails, and files
    each unresolved one under the dummy variable of its name: the dummy's
    references grow by exactly the unresolved references of that name, in
    order and with repeats. *)
Theorem dummy_records_every_lookup (env : Env.t) (references : list Reference.t)
    (st : State) (name : string) :
  (getVariables env references st).1 = Normal tt
  ∧ dummyReferences (getVariables env references st).2 name
    = dummyReferences st name
      ++ List.filter (λ reference,
                        bool_decide (Reference.resolved reference = None
                                     ∧ AST.name (Reference.identifier reference) = name))
                     references.
Proof.
  revert st. induction references as [|reference references IH]; intros st.
  - split; [done|]. simpl. by rewrite app_nil_r.
  - unfold getVariables in *. simpl. rewrite !bind_eq.
    pose proof (dummyReferences_getVariable env reference st name) as Hone.
    rewrite getVariable_eq in *. simpl in *.
    match goal with
    | |- context [forEach _ references ?s] => destruct (IH s) as [Hok Hrest]
    end.
    split; [done|]. rewrite Hrest, Hone, <- app_assoc. f_equal.
    by case_bool_decide.
Qed.

(** ** Read, suspend, write *)

Section Detection.
Context (env : Env.t).

Lemma variableFor_ext reference st st' :
  dummyVariables st' = dummyVariables st →
  variableFor env reference st' = variableFor env reference st.
Proof. unfold variableFor. by intros ->. Qed.

Lemma variableFor_id_forEach currentSegments node references reference st :
  Var.id (variableFor env reference
            (forEach (verify env currentSegments node) references st).2)
  = Var.id (variableFor env reference st).
Proof.
  revert st. induction references as [|other references IH]; intros st; [done|].
  simpl. rewrite bind_eq.
  assert (Hone : Var.id (variableFor env reference
                           (verify env currentSegments node other st).2)
                 = Var.id (variableFor env reference st)).
  { rewrite verify_eq. cbv zeta.
    destruct (SegmentInfo.isOutdated _ _ _); [|apply variableFor_id_getVariable].
    destruct (parentOf node); apply variableFor_id_getVariable. }
  destruct (verify env currentSegments node other st) as [[[]|] st1]; simpl in *.
  - by rewrite IH.
  - done.
Qed.

(** No handler changes the identity of the variable of a reference. *)
Lemma variableFor_id_handle event reference st :
  Var.id (variableFor env reference (handle env event st).2)
  = Var.id (variableFor env reference st).
Proof.
  destruct event as [codePath scope| |segment|currentSegments node|currentSegments node];
    simpl.
  - done.
  - unfold onCodePathEnd. by destruct (stack st).
  - done.
  - destruct (referenceAt st node) as [found|] eqn:Href;
      [|by rewrite Identifier_skipped].
    destruct (referenceAt_frame st node found Href) as (frame & upper & Hstack).
    rewrite (Identifier_found env currentSegments node st frame upper found Hstack Href).
    cbv zeta. rewrite <- (variableFor_id_getVariable env reference found st).
    destruct (getReferenceName _ found); [|done].
    destruct (getWriteExpr env found) as [writeExpr|]; [|done].
    destruct (isFreshRead found writeExpr) as [[]|]; [| |done];
      destruct (needsVerification _ _ _ _) as [[w|]|]; done.
  - destruct (head (stack st) ≫= Frame.referenceMap) as [refMap|] eqn:Hmap';
      [|by rewrite expressionExit_skipped].
    destruct (referenceMap_frame st refMap Hmap') as (frame & upper & Hstack & Hmap).
    rewrite (expressionExit_eq env currentSegments node st frame upper refMap Hstack Hmap).
    cbv zeta.
    destruct (assignmentReferences st !! AST.id node) as [references|].
    + rewrite variableFor_id_forEach. by destruct (isSuspension node).
    + by destruct (isSuspension node).
Qed.

(** The [Identifier] handler only adds to the lists of waiting references. *)
Lemma Identifier_pending currentSegments node st key references :
  assignmentReferences st !! key = Some references →
  ∃ more, assignmentReferences (Identifier env currentSegments node st).2 !! key
          = Some (references ++ more).
Proof.
  intros Hkey.
  destruct (handle_assignmentReferences env (EnterIdentifier currentSegments node) st key)
    as [Heq|[Hnone|(cs & n & reference & referenceName & writeExpr
                    & _ & _ & _ & _ & _ & _ & Hpush)]]; simpl in *.
  - exists []. by rewrite Heq, app_nil_r.
  - exfalso. revert Hnone.
    destruct (referenceAt st node) as [found|] eqn:Href;
      [|by rewrite Identifier_skipped, Hkey].
    destruct (referenceAt_frame st node found Href) as (frame & upper & Hstack).
    rewrite (Identifier_found env currentSegments node st frame upper found Hstack Href).
    destruct (getVariable_frame env found st) as (Ha & _).
    cbv zeta in *.
    destruct (getReferenceName _ found); [|simpl; by rewrite Ha, Hkey].
    destruct (getWriteExpr env found) as [writeExpr|]; [|simpl; by rewrite Ha, Hkey].
    destruct (isFreshRead found writeExpr) as [fresh|]; [|simpl; by rewrite Ha, Hkey].
    destruct (needsVerification _ _ _ _) as [[w|]|]; simpl.
    + unfold pushAssignmentReference.
      destruct (decide (AST.id w = key)) as [<-|Hne].
      * by rewrite lookup_insert_eq.
      * rewrite lookup_insert_ne by done. destruct fresh; simpl; by rewrite Ha, Hkey.
    + destruct fresh; simpl; by rewrite Ha, Hkey.
    + destruct fresh; simpl; by rewrite Ha, Hkey.
  - exists [reference]. by rewrite Hpush, Hkey.
Qed.

Lemma waiting_step frame upper segment w reference variable suspended st event :
  waiting env frame upper segment w reference variable suspended st →
  passesBy (Frame.codePath frame) segment w event = true →
  waiting env frame upper segment w reference variable (suspended || suspends event)
          (handle env event st).2.
Proof.
  intros (Hstack & Hmap & (references & Hrefs & Hin) & Hid & info & Hinfo & Hv) Hpass.
  destruct (Frame.referenceMap frame) as [refMap|] eqn:Hmap'; [clear Hmap|done].
  unfold waiting. rewrite variableFor_id_handle, Hmap'.
  destruct event as [codePath scope| |started|currentSegments node|currentSegments node];
    try done; simpl in Hpass |- *.
  - apply bool_decide_eq_true in Hpass.
    rewrite Identifier_stack. split; [done|]. split; [done|]. split; [|split; [done|]].
    + destruct (Identifier_pending currentSegments node st w references Hrefs)
        as (more & ->).
      eexists. split; [done|]. apply elem_of_app. by left.
    + rewrite orb_false_r.
      destruct (handle_segmentInfo env (EnterIdentifier currentSegments node) st)
        as [Heq|[(s & Hev & _)|[(cs & n & read & Hev & Heq)|(cs & n & Hev & _)]]];
        try done; simpl in Heq; rewrite Heq.
      * by exists info.
      * rewrite markAsRead_lookup, Hinfo.
        case_decide; [|by exists info].
        eexists. split; [done|]. simpl. destruct Hv as [Hv|[Hs Hv]]; [by left|].
        right. split; [done|]. set_solver.
  - apply andb_true_iff in Hpass as [Hcur Hother].
    apply bool_decide_eq_true in Hcur.
    apply negb_true_iff, bool_decide_eq_false in Hother.
    destruct (expressionExit_effect env currentSegments node st frame upper refMap
                Hstack Hmap') as (Hk & Hs & Ha).
    cbv zeta in *. rewrite Hk, Hs, Ha.
    split; [done|]. split; [done|]. split; [|split; [done|]].
    + exists references. by rewrite lookup_delete_ne.
    + destruct (isSuspension node).
      * rewrite makeOutdated_lookup, decide_True, Hinfo by done.
        eexists. split; [done|]. left. simpl. destruct Hv as [Hv|[_ Hv]]; set_solver.
      * rewrite orb_false_r. by exists info.
Qed.

Lemma waiting_along frame upper segment w reference variable suspended mid rest st st' :
  waiting env frame upper segment w reference variable suspended st →
  forallb (passesBy (Frame.codePath frame) segment w) mid = true →
  run env (mid ++ rest) st = (Normal tt, st') →
  ∃ st1, waiting env frame upper segment w reference variable
                 (suspended || existsb suspends mid) st1
         ∧ run env rest st1 = (Normal tt, st').
Proof.
  revert suspended st. induction mid as [|event mid IH]; intros suspended st Hw Hmid Hrun.
  - exists st. by rewrite orb_false_r.
  - simpl in Hmid. apply andb_true_iff in Hmid as [Hevent Hmid].
    simpl app in Hrun. rewrite run_cons in Hrun.
    pose proof (waiting_step _ _ _ _ _ _ _ _ _ Hw Hevent) as Hstep.
    destruct (handle env event st) as [[[]|] st1]; [|done].
    destruct (IH _ st1 Hstep Hmid Hrun) as (st2 & Hw2 & Hrun2).
    exists st2. split; [|done]. simpl. by rewrite orb_assoc.
Qed.

End Detection.

(** X22.  The violation the rule looks for.  An identifier is visited that
    holds a read reference whose write expression is the right side of an
    assignment with an operator other than [=], and whose variable is not a
    local one without escape.  Until the write expression is left, only
    identifiers are visited and other expressions left, on a path that keeps
    one segment of the visit current, and one of the expressions left, the
    write expression included, is an [await] or a [yield].  Then, if the
    events complete normally, the assignment has been reported. *)
Theorem read_suspend_write_is_reported (env : Env.t)
    (currentSegments currentSegmentsAtExit : CodePathId → list SegmentId)
    (node exited writeExpr assignment assignmentAtExit : AST.Node)
    (mid : list Event) (st st' : State) (frame : Frame.t) (upper : list Frame.t)
    (reference : Reference.t) (referenceName : string) (segment : SegmentId) :
  stack st = frame :: upper →
  referenceAt st node = Some reference →
  Reference.isRead reference = true →
  getReferenceName (Env.getPropertyName env) reference = Normal referenceName →
  getWriteExpr env reference = Normal (Some writeExpr) →
  AST.parent writeExpr = Some assignment →
  AST.right assignment = Some (AST.id writeExpr) →
  AST.operator assignment ≠ Some "=" →
  isLocalVariableWithoutEscape (Env.getPropertyName env)
    (variableFor env reference st) referenceName = Normal false →
  segment ∈ currentSegments (Frame.codePath frame) →
  is_Some (segmentInfo st !! segment) →
  forallb (passesBy (Frame.codePath frame) segment (AST.id writeExpr)) mid = true →
  segment ∈ currentSegmentsAtExit (Frame.codePath frame) →
  AST.id exited = AST.id writeExpr →
  AST.parent exited = Some assignmentAtExit →
  existsb suspends (mid ++ [ExitExpression currentSegmentsAtExit exited]) = true →
  run env (EnterIdentifier currentSegments node
           :: mid ++ [ExitExpression currentSegmentsAtExit exited]) st
  = (Normal tt, st') →
  reportFor env assignmentAtExit ∈ reported st'.
Proof.
  intros Hstack Href Hread Hname Hwrite Hparent Hright Hop Hescape Hseg [info Hinfo]
         Hmid HsegExit Hid HparentExit Hsusp Hrun.
  set (variable := Var.id (variableFor env reference st)).
  rewrite run_cons in Hrun. simpl in Hrun.
  assert (Hmap : Frame.referenceMap frame ≠ None).
  { unfold referenceAt in Href. rewrite Hstack in Href. simpl in Href.
    by destruct (Frame.referenceMap frame). }
  assert (Hfirst : ∃ st1, Identifier env currentSegments node st = (Normal tt, st1)
            ∧ waiting env frame upper segment (AST.id writeExpr) reference variable
                      false st1).
  { pose proof (variableFor_id_handle env (EnterIdentifier currentSegments node)
                  reference st) as Hsame.
    simpl in Hsame.
    rewrite (Identifier_found env currentSegments node st frame upper reference
               Hstack Href) in Hsame |- *.
    destruct (getVariable_frame env reference st) as (Ha & Hs & Hk & _).
    cbv zeta in *. rewrite Hname, Hwrite in Hsame |- *.
    assert (isFreshRead reference (Some writeExpr) = Normal true) as Hfresh.
    { unfold isFreshRead, parentOf. rewrite Hread, Hparent. simpl.
      by rewrite bool_decide_eq_false_2. }
    assert (needsVerification env (variableFor env reference st) referenceName
              (Some writeExpr) = Normal (Some writeExpr)) as Hneeds.
    { unfold needsVerification, parentOf. rewrite Hparent. simpl.
      rewrite bool_decide_eq_true_2 by done. by rewrite Hescape. }
    rewrite Hfresh, Hneeds in Hsame |- *.
    eexists. split; [done|]. unfold waiting. simpl.
    split; [by rewrite Hk|]. split; [done|]. split; [|split; [exact Hsame|]].
    - unfold pushAssignmentReference. rewrite lookup_insert_eq.
      eexists. split; [done|]. apply elem_of_app. right. apply list_elem_of_here.
    - rewrite markAsRead_lookup, decide_True, Hs, Hinfo by done.
      eexists. split; [done|]. right. split; [done|]. simpl. set_solver. }
  destruct Hfirst as (st1 & Hrun1 & Hw1). rewrite Hrun1 in Hrun.
  destruct (waiting_along env frame upper segment (AST.id writeExpr) reference variable
              false mid [ExitExpression currentSegmentsAtExit exited] st1 st'
              Hw1 Hmid Hrun)
    as (st2 & (Hstack2 & _ & (references & Hrefs & Hin) & Hvar & info2 & Hinfo2 & Hv)
        & Hrun2).
  simpl in Hv. rewrite existsb_app in Hsusp. simpl in Hsusp.
  rewrite orb_false_r in Hsusp.
  destruct (Frame.referenceMap frame) as [refMap|] eqn:Hmap'; [clear Hmap|done].
  rewrite run_cons in Hrun2. simpl in Hrun2.
  destruct (exit_reports_each_outdated_reference_aux env currentSegmentsAtExit exited
              assignmentAtExit st2 frame upper refMap Hstack2 Hmap' HparentExit)
    as (st3 & Hexit & Hrep).
  rewrite Hexit in Hrun2. injection Hrun2 as <-.
  rewrite Hrep, Hid, Hrefs. simpl.
  apply elem_of_app. right.
  match goal with
  | |- _ ∈ replicate (length (List.filter ?f references)) _ =>
      assert (Hout : f reference = true)
  end.
  { unfold outdatedIn. apply isOutdated_true.
    destruct (isSuspension exited) eqn:Hlast.
    - exists segment, (SegmentInfo.outdate info2). split; [done|]. split.
      + simpl. by rewrite makeOutdated_lookup, decide_True, Hinfo2.
      + rewrite (variableFor_ext env reference st2) by done. rewrite Hvar.
        simpl. destruct Hv as [Hv|[_ Hv]]; set_solver.
    - exists segment, info2. split; [done|]. split; [done|]. rewrite Hvar.
      destruct Hv as [Hv|[Hnone _]]; [done|].
      rewrite orb_false_r in Hsusp. congruence. }
  assert (Hf : In reference (List.filter (outdatedIn env
                 (currentSegmentsAtExit (Frame.codePath frame))
                 (if isSuspension exited
                  then set_segmentInfo (SegmentInfo.makeOutdated
                         (currentSegmentsAtExit (Frame.codePath frame))) st2
                  else st2)) references)).
  { apply filter_In. split; [by apply list_elem_of_In|done]. }
  destruct (List.filter _ references) as [|r rest]; [done|].
  simpl. apply list_elem_of_here.
Qed.

Lemma read_suspend_write_is_reported_witness :
  let env := Examples.env "+=" "AwaitExpression" Examples.globalScope (Some "b") in
  let st := (run env (Examples.entering "+=" "AwaitExpression" (Some 0)) initialState).2 in
  let events := take 8 (drop 2 (Examples.traversal "+=" "AwaitExpression" (Some 0))) in
  reportFor env (Examples.assignment "+=") ∈ reported (run env events st).2.
Proof.
  intros env st events.
  apply (read_suspend_write_is_reported env Examples.currentSegments
           Examples.currentSegments (Examples.a "+=")
           (Examples.right "+=" "AwaitExpression")
           (Examples.right "+=" "AwaitExpression")
           (Examples.assignment "+=") (Examples.assignment "+=")
           (take 6 (drop 3 (Examples.traversal "+=" "AwaitExpression" (Some 0))))
           st (run env events st).2
           (Frame.mk 1 (Some (createReferenceMap
                                (Examples.treeF "+=" "AwaitExpression" (Some 0)) ∅)))
           [] (Examples.refA "+=" (Some 0)) "a.b" 1).
  - reflexivity.
  - reflexivity.
  - reflexivity.
  - reflexivity.
  - reflexivity.
  - reflexivity.
  - reflexivity.
  - discriminate.
  - reflexivity.
  - apply list_elem_of_here.
  - by eexists.
  - reflexivity.
  - apply list_elem_of_here.
  - reflexivity.
  - reflexivity.
  - reflexivity.
  - vm_compute. reflexivity.
Defined.
